(** * Durable conversation state machine: Agent B's TaskWorkflow and
      Agent A's InitiatorWorkflow, HTTP handlers and retry configuration.

    The workflows are asynchronous functions that suspend at every
    [await]. Each is embedded as the state machine a compiler of
    coroutines would produce: one constructor per suspension point holding
    the live local variables, one function per straight-line segment
    between two suspension points. The durable-execution substrate is the
    environment: it decides when a signal is delivered, when an awaited
    activity resolves and with what outcome, and what the workflow clock
    reads. *)

From stdpp Require Import base option list strings.
From Stdlib Require Import ZArith Lia DecimalString.

Local Open Scope string_scope.

(** ** Strings as the source uses them *)

(** Python's [needle in hay] on [str]: [needle] occurs at some offset. *)
Fixpoint str_in (needle hay : string) : bool :=
  String.prefix needle hay ||
  match hay with
  | EmptyString => false
  | String _ rest => str_in needle rest
  end.

(** ** Agent B: TaskWorkflow (agent-b/src/workflows/task_workflow.py, as
       the technical specification gives it) *)

Module TaskWorkflow.

(** Entries of [state.inbound_messages]; the dictionary keys are
    [message_id], [content], [reply_to], [timestamp]. *)
Record InboundMessage := mkInbound {
  message_id : string;
  content : string;
  reply_to : string;
  timestamp : Z
}.

(** Entries of [state.outbound_messages]; keys [message_id],
    [recipient_url], [sent]. *)
Record OutboundMessage := mkOutbound {
  out_message_id : string;
  recipient_url : string;
  sent : bool
}.

Record TaskWorkflowState := mkState {
  task_id : string;
  inbound_messages : list InboundMessage;
  outbound_messages : list OutboundMessage
}.

(** The payload of the [inbound_message] signal. *)
Record signal_msg := mkMsg {
  msg_message_id : string;
  msg_content : string;
  msg_reply_to : string
}.

(** The activities the workflow awaits, with their arguments. *)
Inductive activity :=
| crash_worker
| process_message (tid mid cont : string)
| send_a2a_message (url tid mid cont : string).

(** What [await workflow.execute_activity(...)] does when the substrate
    resumes the handler: it evaluates to the activity's result, or raises. *)
Inductive outcome :=
| Completed (result : string)
| Failed.

(** A suspended invocation of the handler: where it waits and its locals.
    [outbound] is the position, in [outbound_messages], of the dictionary
    the local variable [outbound] is an alias of. *)
Inductive frame :=
| at_crash_worker (mid cont rto : string)
| at_process_message (mid cont rto : string)
| at_send_a2a_message (mid rto response reply_id : string) (outbound : nat).

Definition frame_mid (f : frame) : string :=
  match f with
  | at_crash_worker m _ _ => m
  | at_process_message m _ _ => m
  | at_send_a2a_message m _ _ _ _ => m
  end.

(** How a segment of the handler ends. *)
Inductive status :=
| Returned
| Raised
| Awaiting (a : activity) (f : frame).

(** [TaskWorkflowState(task_id=task_id)], line 499. *)
Definition init_state (tid : string) : TaskWorkflowState :=
  mkState tid [] [].

(** The condition [run] waits for, line 502. *)
Definition wait_condition (st : TaskWorkflowState) : bool :=
  (3 <=? length (inbound_messages st))%nat.

(** [any(m["message_id"] == message_id for m in self.state.inbound_messages)] *)
Definition seen (mid : string) (st : TaskWorkflowState) : bool :=
  existsb (fun m => String.eqb (message_id m) mid) (inbound_messages st).

(** [any(m["message_id"] == reply_id for m in self.state.outbound_messages)] *)
Definition in_outbox (rid : string) (st : TaskWorkflowState) : bool :=
  existsb (fun m => String.eqb (out_message_id m) rid) (outbound_messages st).

(** [f"r-{message_id}"], line 542. *)
Definition reply_id_of (mid : string) : string := "r-" ++ mid.

(** Lines 533-539: schedule the LLM call and suspend. *)
Definition process (st : TaskWorkflowState) (mid cont rto : string)
  : TaskWorkflowState * status :=
  (st, Awaiting (process_message (task_id st) mid cont)
                (at_process_message mid cont rto)).

(** Lines 507-531: idempotency check, ledger append, crash trigger. *)
Definition inbound_message (msg : signal_msg) (now : Z) (st : TaskWorkflowState)
  : TaskWorkflowState * status :=
  let mid := msg_message_id msg in
  let cont := msg_content msg in
  let rto := msg_reply_to msg in
  if seen mid st then (st, Returned)
  else
    let st := mkState (task_id st)
                (inbound_messages st ++ [mkInbound mid cont rto now])
                (outbound_messages st) in
    if str_in "EXECUTE_ORDER_66" cont
    then (st, Awaiting crash_worker (at_crash_worker mid cont rto))
    else process st mid cont rto.

(** Lines 541-559: derive the reply id, upsert the outbox record, look it
    up with [next(...)] and schedule the transmission unless it is marked
    sent. [next] on an exhausted generator raises. *)
Definition dispatch (st : TaskWorkflowState) (mid rto response : string)
  : TaskWorkflowState * status :=
  let rid := reply_id_of mid in
  let st :=
    if negb (in_outbox rid st)
    then mkState (task_id st) (inbound_messages st)
           (outbound_messages st ++ [mkOutbound rid rto false])
    else st in
  match list_find (fun m => out_message_id m = rid) (outbound_messages st) with
  | None => (st, Raised)
  | Some (i, outbound) =>
      if negb (sent outbound)
      then (st, Awaiting (send_a2a_message rto (task_id st) rid response)
                         (at_send_a2a_message mid rto response rid i))
      else (st, Returned)
  end.

(** Line 560, [outbound["sent"] = True], on the aliased dictionary. *)
Definition mark_sent (i : nat) (st : TaskWorkflowState) : TaskWorkflowState :=
  mkState (task_id st) (inbound_messages st)
    (alter (fun m => mkOutbound (out_message_id m) (recipient_url m) true) i
       (outbound_messages st)).

(** The handler resumes from a suspension point with the awaited
    activity's outcome. An exception leaves the handler at once. *)
Definition resume (f : frame) (o : outcome) (st : TaskWorkflowState)
  : TaskWorkflowState * status :=
  match o with
  | Failed => (st, Raised)
  | Completed result =>
      match f with
      | at_crash_worker mid cont rto => process st mid cont rto
      | at_process_message mid cont rto => dispatch st mid rto result
      | at_send_a2a_message _ _ _ _ i => (mark_sent i st, Returned)
      end
  end.

(** *** The workflow as a transition system *)

(** The observable history: activities scheduled and resolved, each tagged
    with the handler invocation (frame) that awaits it. *)
Inductive event :=
| Scheduled (f : frame) (a : activity)
| Resolved (f : frame) (a : activity) (o : outcome).

Record config := mkConfig {
  wf_state : TaskWorkflowState;
  pending : list (activity * frame);
  history : list event
}.

(** The substrate's moves: deliver a signal to the handler (at workflow
    time [now]), or resolve the activity awaited by the [i]-th suspended
    handler. A workflow whose [run] has returned (or that an exception
    has failed) receives no further move: its executions are prefixes of
    the schedules below. *)
Inductive action :=
| Signal (msg : signal_msg) (now : Z)
| Resolve (i : nat) (o : outcome).

Definition settle (st : TaskWorkflowState) (s : status)
    (pend : list (activity * frame)) (h : list event) : config :=
  match s with
  | Awaiting a f => mkConfig st (pend ++ [(a, f)]) (h ++ [Scheduled f a])
  | _ => mkConfig st pend h
  end.

Definition step (c : config) (a : action) : config :=
  match a with
  | Signal msg now =>
      let '(st, s) := inbound_message msg now (wf_state c) in
      settle st s (pending c) (history c)
  | Resolve i o =>
      match pending c !! i with
      | None => c
      | Some (a, f) =>
          let '(st, s) := resume f o (wf_state c) in
          settle st s (delete i (pending c)) (history c ++ [Resolved f a o])
      end
  end.

Definition init (tid : string) : config := mkConfig (init_state tid) [] [].

Definition exec (tid : string) (acts : list action) : config :=
  foldl step (init tid) acts.

(** Ledger views. *)
Definition ids (c : config) : list string :=
  message_id <$> inbound_messages (wf_state c).

Definition pend_ids (c : config) : list string :=
  (fun p => frame_mid (snd p)) <$> pending c.

Definition records_of (mid : string) (c : config) : list InboundMessage :=
  filter (fun m => message_id m = mid) (inbound_messages (wf_state c)).

Definition is_delivery (mid : string) (a : action) : bool :=
  match a with
  | Signal msg _ => String.eqb (msg_message_id msg) mid
  | Resolve _ _ => false
  end.

(** A successful transmission for reply id [rid]: the [send_a2a_message]
    activity for it completed (the resumed handler marks the record sent in
    the same segment). *)
Definition is_transmission (rid : string) (e : event) : bool :=
  match e with
  | Resolved _ (send_a2a_message _ _ r _) (Completed _) => String.eqb r rid
  | _ => false
  end.

Definition transmissions (rid : string) (h : list event) : nat :=
  length (filter (fun e => is_transmission rid e = true) h).

(** *** The dispatch sequence run again *)

(** One complete execution of the dispatch sequence (lines 541-560) for
    message [mid], as a retry or a replay performs it: the transmission,
    when it is scheduled, resolves with outcome [o]. *)
Definition dispatch_run (st : TaskWorkflowState) (mid rto response : string)
    (o : outcome) : TaskWorkflowState * list event :=
  let '(st1, s) := dispatch st mid rto response in
  match s with
  | Awaiting a f => (fst (resume f o st1), [Scheduled f a; Resolved f a o])
  | _ => (st1, [])
  end.

Record dispatch_call := mkCall {
  dc_mid : string;
  dc_rto : string;
  dc_response : string;
  dc_outcome : outcome
}.

Fixpoint dispatch_runs (st : TaskWorkflowState) (calls : list dispatch_call)
  : TaskWorkflowState * list event :=
  match calls with
  | [] => (st, [])
  | d :: ds =>
      let '(st1, h1) :=
        dispatch_run st (dc_mid d) (dc_rto d) (dc_response d) (dc_outcome d) in
      let '(st2, h2) := dispatch_runs st1 ds in
      (st2, (h1 ++ h2)%list)
  end.

(** The [sent] flag of the record [next(...)] finds for [rid], if any. *)
Fixpoint first_sent (rid : string) (l : list OutboundMessage) : option bool :=
  match l with
  | [] => None
  | m :: l => if decide (out_message_id m = rid) then Some (sent m)
              else first_sent rid l
  end.

(** Outbox records keep their position and id, and a raised [sent] flag
    stays raised. *)
Definition outbox_le (l l' : list OutboundMessage) : Prop :=
  forall i ob, l !! i = Some ob ->
    exists ob', l' !! i = Some ob' /\
      out_message_id ob' = out_message_id ob /\
      (sent ob = true -> sent ob' = true).


(** *** Invariants of the transition system *)

(** The activity a suspended handler awaits agrees with its locals; the
    reply id it carries is the one derived from its message id. *)
Definition tagged (a : activity) (f : frame) : Prop :=
  match f with
  | at_crash_worker _ _ _ => a = crash_worker
  | at_process_message m c _ => exists tid, a = process_message tid m c
  | at_send_a2a_message m rto resp rid _ =>
      (exists tid, a = send_a2a_message rto tid rid resp) /\ rid = reply_id_of m
  end.

Definition out_ids (c : config) : list string :=
  out_message_id <$> outbound_messages (wf_state c).

Definition event_frame (e : event) : frame :=
  match e with Scheduled f _ | Resolved f _ _ => f end.

Definition event_act (e : event) : activity :=
  match e with Scheduled _ a | Resolved _ a _ => a end.

(** At most one handler is in flight per message id, every handler in
    flight belongs to a recorded message, and awaits the activity its
    locals describe. *)
Record Inv1 (c : config) : Prop := mkInv1 {
  inv_nodup : NoDup (pend_ids c);
  inv_pend : forall m, m ∈ pend_ids c -> m ∈ ids c;
  inv_tag : forall a f, (a, f) ∈ pending c -> tagged a f
}.

(** A reply id with a completed transmission has exactly one; its message
    is recorded and its handler has finished. *)
Definition InvT (c : config) : Prop :=
  forall rid, (0 < transmissions rid (history c))%nat ->
    transmissions rid (history c) = 1%nat /\
    exists m, rid = reply_id_of m /\ m ∈ ids c /\ m ∉ pend_ids c.

(** Every event of the history belongs to a recorded message and carries
    the activity its handler's locals describe. *)
Definition InvH (c : config) : Prop :=
  forall e, e ∈ history c ->
    tagged (event_act e) (event_frame e) /\ frame_mid (event_frame e) ∈ ids c.

(** The outbox holds at most one record per reply id, each derived from a
    recorded message. *)
Definition InvO (c : config) : Prop :=
  NoDup (out_ids c) /\
  forall rid, rid ∈ out_ids c -> exists m, rid = reply_id_of m /\ m ∈ ids c.

(** Whenever the LLM call is scheduled for a message whose content fires
    the trigger, the event just before it is the crash activity of the
    same handler having completed. *)
Definition InvC (c : config) : Prop :=
  forall i m cont rto a,
    history c !! i = Some (Scheduled (at_process_message m cont rto) a) ->
    str_in "EXECUTE_ORDER_66" cont = true ->
    exists j res, i = S j /\
      history c !! j =
        Some (Resolved (at_crash_worker m cont rto) crash_worker (Completed res)).

(** Transmissions a reply id can still get from a state. *)
Definition budget (rid : string) (st : TaskWorkflowState) : nat :=
  match first_sent rid (outbound_messages st) with
  | Some true => 0
  | _ => 1
  end.

(** How many times the schedule delivers a message with id [mid]. *)
Definition deliveries (mid : string) (acts : list action) : nat :=
  length (filter (fun a => is_delivery mid a = true) acts).

(** *** A concrete conversation: message m3 carrying the trigger *)

Definition a_url : string := "http://agent-a:8081/a2a/message/send".

Definition m3 : signal_msg := mkMsg "m3" "[[TRIGGER:EXECUTE_ORDER_66]]" a_url.

(** m3 is delivered, delivered again with other content while the crash
    activity is pending, the crash activity and the LLM call complete, the
    reply is transmitted, and m3 is delivered a third time. *)
Definition order66 : list action :=
  [ Signal m3 1000;
    Signal (mkMsg "m3" "something else" a_url) 1001;
    Resolve 0 (Completed "");
    Resolve 0 (Completed "It will be done, my lord.");
    Resolve 0 (Completed "received");
    Signal m3 1002 ].

(** *** The ledger as a function of the deliveries *)

(** The record a delivery would append. *)
Definition record_of (a : action) : option InboundMessage :=
  match a with
  | Signal msg now =>
      Some (mkInbound (msg_message_id msg) (msg_content msg) (msg_reply_to msg) now)
  | Resolve _ _ => None
  end.

(** Keep, in order, the first record of every message id. *)
Definition keep_first (l : list InboundMessage) (r : InboundMessage)
  : list InboundMessage :=
  if decide (message_id r ∈ message_id <$> l) then l else (l ++ [r])%list.

Definition first_deliveries (acts : list action) : list InboundMessage :=
  foldl keep_first [] (omap record_of acts).

(** The message ids a schedule delivers, with repetitions. *)
Definition delivered_ids (acts : list action) : list string :=
  message_id <$> omap record_of acts.

(** *** The moves of the workflow, case by case *)

(** The upsert of lines 545-550 on its own. *)
Definition upsert (rid rto : string) (st : TaskWorkflowState) : TaskWorkflowState :=
  if negb (in_outbox rid st)
  then mkState (task_id st) (inbound_messages st)
         (outbound_messages st ++ [mkOutbound rid rto false])
  else st.

Definition frame_rto (f : frame) : string :=
  match f with
  | at_crash_worker _ _ r => r
  | at_process_message _ _ r => r
  | at_send_a2a_message _ r _ _ _ => r
  end.

(** What one move can do to a configuration: nothing (a duplicate, or no
    such suspended handler); admit a new message; let an awaited activity
    fail; pass the crash checkpoint; dispatch after the LLM call, with or
    without scheduling the transmission; mark a reply sent. *)
Inductive transition (c : config) : config -> Prop :=
| t_none : transition c c
| t_admit msg now a f :
    msg_message_id msg ∉ ids c ->
    (a, f) =
      (if str_in "EXECUTE_ORDER_66" (msg_content msg)
       then (crash_worker,
             at_crash_worker (msg_message_id msg) (msg_content msg)
               (msg_reply_to msg))
       else (process_message (task_id (wf_state c)) (msg_message_id msg)
               (msg_content msg),
             at_process_message (msg_message_id msg) (msg_content msg)
               (msg_reply_to msg))) ->
    transition c
      (mkConfig
         (mkState (task_id (wf_state c))
            (inbound_messages (wf_state c) ++
               [mkInbound (msg_message_id msg) (msg_content msg)
                  (msg_reply_to msg) now])
            (outbound_messages (wf_state c)))
         (pending c ++ [(a, f)]) (history c ++ [Scheduled f a]))
| t_fail i a f :
    pending c !! i = Some (a, f) ->
    transition c
      (mkConfig (wf_state c) (delete i (pending c))
         (history c ++ [Resolved f a Failed]))
| t_crashed i a m cont rto res :
    pending c !! i = Some (a, at_crash_worker m cont rto) ->
    transition c
      (mkConfig (wf_state c)
         (delete i (pending c) ++
            [(process_message (task_id (wf_state c)) m cont,
              at_process_message m cont rto)])
         (history c ++
            [Resolved (at_crash_worker m cont rto) a (Completed res);
             Scheduled (at_process_message m cont rto)
               (process_message (task_id (wf_state c)) m cont)]))
| t_dispatch_quiet i a m cont rto res :
    pending c !! i = Some (a, at_process_message m cont rto) ->
    transition c
      (mkConfig (upsert (reply_id_of m) rto (wf_state c))
         (delete i (pending c))
         (history c ++ [Resolved (at_process_message m cont rto) a (Completed res)]))
| t_dispatch_send i a m cont rto res idx ob :
    pending c !! i = Some (a, at_process_message m cont rto) ->
    outbound_messages (upsert (reply_id_of m) rto (wf_state c)) !! idx = Some ob ->
    out_message_id ob = reply_id_of m ->
    sent ob = false ->
    transition c
      (mkConfig (upsert (reply_id_of m) rto (wf_state c))
         (delete i (pending c) ++
            [(send_a2a_message rto (task_id (wf_state c)) (reply_id_of m) res,
              at_send_a2a_message m rto res (reply_id_of m) idx)])
         (history c ++
            [Resolved (at_process_message m cont rto) a (Completed res);
             Scheduled (at_send_a2a_message m rto res (reply_id_of m) idx)
               (send_a2a_message rto (task_id (wf_state c)) (reply_id_of m) res)]))
| t_sent i a m rto resp rid idx res :
    pending c !! i = Some (a, at_send_a2a_message m rto resp rid idx) ->
    transition c
      (mkConfig (mark_sent idx (wf_state c)) (delete i (pending c))
         (history c ++
            [Resolved (at_send_a2a_message m rto resp rid idx) a (Completed res)])).

(** Calls of the LLM activity for message [mid], and schedulings of the
    transmission under reply id [rid], in a history. *)
Definition is_llm_call (mid : string) (e : event) : bool :=
  match e with
  | Scheduled _ (process_message _ m _) => String.eqb m mid
  | _ => false
  end.

Definition is_send_call (rid : string) (e : event) : bool :=
  match e with
  | Scheduled _ (send_a2a_message _ _ r _) => String.eqb r rid
  | _ => false
  end.

Definition llm_calls (mid : string) (h : list event) : nat :=
  length (filter (fun e => is_llm_call mid e = true) h).

Definition send_calls (rid : string) (h : list event) : nat :=
  length (filter (fun e => is_send_call rid e = true) h).

(** Per message: each activity is scheduled at most once, none before the
    message is recorded, and none of a later stage while the handler is
    suspended at an earlier one. *)
Record InvS (c : config) : Prop := mkInvS {
  s_once : forall m,
    (llm_calls m (history c) <= 1)%nat /\
    (send_calls (reply_id_of m) (history c) <= 1)%nat;
  s_new : forall m, m ∉ ids c ->
    llm_calls m (history c) = 0%nat /\
    send_calls (reply_id_of m) (history c) = 0%nat;
  s_crash : forall a m cont rto,
    (a, at_crash_worker m cont rto) ∈ pending c ->
    llm_calls m (history c) = 0%nat /\
    send_calls (reply_id_of m) (history c) = 0%nat;
  s_process : forall a m cont rto,
    (a, at_process_message m cont rto) ∈ pending c ->
    send_calls (reply_id_of m) (history c) = 0%nat
}.

(** The outbox and the transmissions agree: a handler suspended on a
    transmission holds the position of its reply's record, and a record is
    marked sent exactly when a transmission under its id has completed. *)
Record InvSent (c : config) : Prop := mkInvSent {
  p_alias : forall a m rto resp rid idx,
    (a, at_send_a2a_message m rto resp rid idx) ∈ pending c ->
    exists ob, outbound_messages (wf_state c) !! idx = Some ob /\
               out_message_id ob = rid;
  p_sent : forall idx ob,
    outbound_messages (wf_state c) !! idx = Some ob ->
    (sent ob = true <-> (0 < transmissions (out_message_id ob) (history c))%nat)
}.

Definition frame_cont (f : frame) : option string :=
  match f with
  | at_crash_worker _ c _ => Some c
  | at_process_message _ c _ => Some c
  | at_send_a2a_message _ _ _ _ _ => None
  end.

(** A suspended handler and the activity it awaits are backed by a ledger
    record: the record has the handler's message id, reply address and
    content, and the activity's arguments are taken from them and from the
    workflow's task id. *)
Definition backed (tid : string) (st : TaskWorkflowState)
    (a : activity) (f : frame) : Prop :=
  exists r, r ∈ inbound_messages st /\
    message_id r = frame_mid f /\ reply_to r = frame_rto f /\
    (forall cont, frame_cont f = Some cont -> content r = cont) /\
    match a with
    | crash_worker => True
    | process_message t m cont =>
        t = tid /\ m = frame_mid f /\ frame_cont f = Some cont
    | send_a2a_message url t rid _ =>
        t = tid /\ url = frame_rto f /\ rid = reply_id_of (frame_mid f)
    end.

(** Routing: the workflow's task id, and the ledger record behind every
    suspended handler, outbox record and event of the history. *)
Record InvR (tid : string) (c : config) : Prop := mkInvR {
  r_tid : task_id (wf_state c) = tid;
  r_pending : forall a f, (a, f) ∈ pending c -> backed tid (wf_state c) a f;
  r_outbox : forall ob, ob ∈ outbound_messages (wf_state c) ->
    exists r, r ∈ inbound_messages (wf_state c) /\
      out_message_id ob = reply_id_of (message_id r) /\
      recipient_url ob = reply_to r;
  r_history : forall e, e ∈ history c ->
    backed tid (wf_state c) (event_act e) (event_frame e)
}.

End TaskWorkflow.

(** ** Agent A: InitiatorWorkflow
       (agent-a/src/workflows/initiator-workflow.ts) *)

(** Template-literal conversion of a loop counter, as in [`m${i}`]. *)
Definition string_of_nat (n : nat) : string :=
  NilEmpty.string_of_uint (Nat.to_uint n).

Module InitiatorWorkflow.

(** Entries of [sentMessages] and of [receivedReplies]. *)
Record Entry := mkEntry {
  messageId : string;
  content : string;
  timestamp : Z
}.

Record InitiatorWorkflowState := mkState {
  taskId : string;
  sentMessages : list Entry;
  receivedReplies : list Entry
}.

(** Payload of the [replyReceived] signal. *)
Record ReplyMessage := mkReply {
  reply_messageId : string;
  reply_content : string
}.

Record SendA2AMessageParams := mkParams {
  recipientUrl : string;
  p_taskId : string;
  p_messageId : string;
  replyTo : string;
  p_content : string
}.

(** The workflow function's parameters. *)
Record Args := mkArgs {
  a_taskId : string;
  agentBUrl : string;
  agentAUrl : string
}.

(** What the workflow asks of the substrate. *)
Inductive command :=
| ScheduleActivity (p : SendA2AMessageParams)
| StartTimer (seconds : nat)
| CompleteWorkflow (result : InitiatorWorkflowState).

(** Where the workflow function is suspended, with the live locals. *)
Inductive point :=
| AwaitSend (i : nat) (mid cont : string)
| Sleep30 (i : nat)
| Sleep10
| Completed.

Record config := mkConfig {
  args : Args;
  state : InitiatorWorkflowState;
  at_point : point;
  commands : list command
}.

(** What the substrate feeds the workflow: the awaited activity returned
    ([true]) or threw once its retries were exhausted ([false]); the
    awaited timer fired; a [replyReceived] signal arrived. Each activation
    carries the value [Date.now()] evaluates to inside it. *)
Inductive wf_event :=
| ActivityResolved (ok : bool)
| TimerFired
| replyReceived (reply : ReplyMessage).

(** Lines 220-227. *)
Definition turn_content (i : nat) : string :=
  if (i =? 1)%nat then "The time is near, Commander."
  else if (i =? 2)%nat then "Soon, the Jedi will fall."
  else "[[TRIGGER:EXECUTE_ORDER_66]]".

(** The head of the [for] loop, lines 216-239, entered with counter [i];
    past the last turn, the final sleep of line 261. *)
Definition loop (a : Args) (i : nat) : point * list command :=
  if (i <=? 3)%nat then
    let mid := "m" ++ string_of_nat i in
    let cont := turn_content i in
    (AwaitSend i mid cont,
     [ScheduleActivity
        (mkParams (agentBUrl a ++ "/a2a/message/send") (a_taskId a) mid
           (agentAUrl a ++ "/a2a/message/send") cont)])
  else (Sleep10, [StartTimer 10]).

(** Lines 196-216: fresh state, handlers registered, first turn. *)
Definition start (a : Args) : config :=
  let '(p, cmds) := loop a 1 in
  mkConfig a (mkState (a_taskId a) [] []) p cmds.

Definition goto (c : config) (st : InitiatorWorkflowState)
    (next : point * list command) : config :=
  mkConfig (args c) st (fst next) (commands c ++ snd next).

(** One activation. The signal handler (lines 203-210) runs whenever a
    reply is delivered to the open workflow; the main function resumes
    when what it awaits is resolved. An event the workflow does not await
    changes nothing. Timers fire; they are never cancelled. *)
Definition step (c : config) (ev : wf_event * Z) : config :=
  let '(e, now) := ev in
  let st := state c in
  match e, at_point c with
  | replyReceived _, Completed => c
  | replyReceived reply, _ =>
      mkConfig (args c)
        (mkState (taskId st) (sentMessages st)
           (receivedReplies st ++
              [mkEntry (reply_messageId reply) (reply_content reply) now]))
        (at_point c) (commands c)
  | ActivityResolved true, AwaitSend i mid cont =>
      goto c (mkState (taskId st)
                (sentMessages st ++ [mkEntry mid cont now])
                (receivedReplies st))
             (Sleep30 i, [StartTimer 30])
  | ActivityResolved false, AwaitSend i _ _ => goto c st (loop (args c) (S i))
  | TimerFired, Sleep30 i => goto c st (loop (args c) (S i))
  | TimerFired, Sleep10 => goto c st (Completed, [CompleteWorkflow st])
  | _, _ => c
  end.

Definition run (a : Args) (evs : list (wf_event * Z)) : config :=
  foldl step (start a) evs.

(** A complete execution: the substrate resolves whatever the workflow
    awaits, round after round; before each resolution any number of reply
    signals may arrive. *)
Record round := mkRound {
  signals : list (ReplyMessage * Z);
  ok : bool;
  now : Z
}.

Definition answer (p : point) (ok : bool) : wf_event :=
  match p with
  | AwaitSend _ _ _ => ActivityResolved ok
  | _ => TimerFired
  end.

Definition deliver (c : config) (s : ReplyMessage * Z) : config :=
  step c (replyReceived (fst s), snd s).

Definition play (c : config) (r : round) : config :=
  let c1 := foldl deliver c (signals r) in
  step c1 (answer (at_point c1) (ok r), now r).

Definition drive (a : Args) (rounds : list round) : config :=
  foldl play (start a) rounds.

(** Activities scheduled so far. *)
Definition sends (c : config) : list SendA2AMessageParams :=
  omap (fun cmd => match cmd with ScheduleActivity p => Some p | _ => None end)
    (commands c).

(** Timers started so far, in seconds. *)
Definition timers (c : config) : list nat :=
  omap (fun cmd => match cmd with StartTimer n => Some n | _ => None end)
    (commands c).

Definition turn_params (a : Args) (i : nat) : SendA2AMessageParams :=
  mkParams (agentBUrl a ++ "/a2a/message/send") (a_taskId a)
    ("m" ++ string_of_nat i) (agentAUrl a ++ "/a2a/message/send")
    (turn_content i).

(** Upper bound on the resolutions still needed to complete. *)
Definition remaining (p : point) : nat :=
  match p with
  | AwaitSend i _ _ => 2 * (3 - i) + 3
  | Sleep30 i => 2 * (3 - i) + 2
  | Sleep10 => 1
  | Completed => 0
  end.


(** A reply corresponds to a sent turn when it carries the turn's id or
    the reply id Agent B derives from it. *)
Definition corresponds (r s : Entry) : Prop :=
  messageId r = messageId s \/ messageId r = "r-" ++ messageId s.

(** Turns whose send has been scheduled, and turns whose send has been
    resolved, at a suspension point. *)
Definition started (p : point) : nat :=
  match p with
  | AwaitSend i _ _ | Sleep30 i => i
  | Sleep10 | Completed => 3
  end.

Definition recorded (p : point) : nat :=
  match p with
  | AwaitSend i _ _ => i - 1
  | Sleep30 i => i
  | Sleep10 | Completed => 3
  end.

Definition turn_key (i : nat) : string * string :=
  ("m" ++ string_of_nat i, turn_content i).

Definition entry_key (e : Entry) : string * string :=
  (messageId e, content e).

(** What every reachable configuration satisfies. *)
Record Inv (c : config) : Prop := mkInv {
  inv_point :
    match at_point c with
    | AwaitSend i mid cont =>
        (1 <= i <= 3)%nat /\ mid = "m" ++ string_of_nat i /\ cont = turn_content i
    | Sleep30 i => (1 <= i <= 3)%nat
    | Sleep10 => True
    | Completed =>
        exists cmds, commands c = (cmds ++ [CompleteWorkflow (state c)])%list
    end;
  inv_sends :
    sends c = turn_params (args c) <$> seq 1 (started (at_point c));
  inv_sent :
    (entry_key <$> sentMessages (state c))
      `sublist_of` (turn_key <$> seq 1 (recorded (at_point c)));
  inv_timers :
    timers c =
    (replicate (length (sentMessages (state c))) 30%nat ++
     match at_point c with Sleep10 | Completed => [10%nat] | _ => [] end)%list
}.

(** The claim of driver monotonicity as the specification words it. *)
Definition replies_correlated (c : config) : Prop :=
  forall r, r ∈ receivedReplies (state c) ->
    exists s, s ∈ sentMessages (state c) /\ corresponds r s.

(** *** Concrete executions *)

Definition demo_args : Args :=
  mkArgs "demo-1" "http://agent-b:8080" "http://agent-a:8081".

(** Every send succeeds and every reply arrives during the wait. *)
Definition happy_rounds : list round :=
  [ mkRound [] true 100;
    mkRound [(mkReply "r-m1" "Yes, my lord.", 150%Z)] true 200;
    mkRound [] true 300;
    mkRound [(mkReply "r-m2" "We are ready.", 350%Z)] true 400;
    mkRound [] true 500;
    mkRound [(mkReply "r-m3" "It will be done, my lord.", 550%Z)] true 600;
    mkRound [] true 700 ].

(** Every send exhausts its retries. *)
Definition failing_rounds : list round :=
  [ mkRound [] false 100; mkRound [] false 200; mkRound [] false 300;
    mkRound [] true 400 ].

(** A reply is delivered while the first send is still awaited. *)
Definition early_reply : list (wf_event * Z) :=
  [ (replyReceived (mkReply "r-m1" "Yes, my lord."), 50%Z) ].

(** A history with its reply signals removed. *)
Definition is_reply (ev : wf_event * Z) : bool :=
  match fst ev with
  | replyReceived _ => true
  | _ => false
  end.

Definition without_replies (evs : list (wf_event * Z)) : list (wf_event * Z) :=
  filter (fun ev => is_reply ev = false) evs.

(** Two configurations that differ at most in the replies received. *)
Record same_course (c c' : config) : Prop := mkSame {
  sc_args : args c = args c';
  sc_point : at_point c = at_point c';
  sc_task : taskId (state c) = taskId (state c');
  sc_sent : sentMessages (state c) = sentMessages (state c');
  sc_sends : sends c = sends c';
  sc_timers : timers c = timers c'
}.

End InitiatorWorkflow.

(** ** Agent A: demo driver (agent-a/src/demo-driver.ts) *)

Module DemoDriver.

(** JSON values, for the request field the handler never inspects. *)
#[warnings="-register-all"]
Inductive json :=
| JNull
| JBool (b : bool)
| JNumber (n : Z)
| JString (s : string)
| JArray (l : list json)
| JObject (l : list (string * json)).

(** [req.body] of POST /start-task. *)
Record start_body := mkBody {
  b_taskId : option string;
  b_turns : option json
}.

(** [process.env]. *)
Record process_env := mkEnv {
  AGENT_B_URL : option string;
  AGENT_A_URL : option string;
  TEMPORAL_TASK_QUEUE : option string
}.

(** JavaScript's [v || d] on an optional string. *)
Definition or_default (v : option string) (d : string) : string :=
  match v with
  | Some s => if String.eqb s "" then d else s
  | None => d
  end.

(** The argument of [temporalClient.workflow.start]. *)
Record workflow_start := mkStart {
  taskQueue : string;
  workflowId : string;
  wargs : list string
}.

Inductive start_response :=
| BadRequest (error : string)
| Started (taskId workflowId message : string)
| ServerError (error details : string).

(** Lines 51-91. [start] is the Temporal client: it returns the error
    message when it throws. *)
Definition start_task (body : start_body) (env : process_env)
    (start : workflow_start -> option string)
  : start_response * list workflow_start :=
  match b_taskId body with
  | None => (BadRequest "Missing required field: taskId", [])
  | Some tid =>
      if String.eqb tid "" then (BadRequest "Missing required field: taskId", [])
      else
        let wid := "initiator-" ++ tid in
        let b := or_default (AGENT_B_URL env) "http://agent-b:8080" in
        let a := or_default (AGENT_A_URL env) "http://agent-a:8081" in
        let ws := mkStart (or_default (TEMPORAL_TASK_QUEUE env) "agent-a-tasks")
                    wid [tid; b; a] in
        match start ws with
        | None =>
            (Started tid wid ("Task " ++ tid ++ " started. Workflow ID: " ++ wid),
             [ws])
        | Some details => (ServerError "Failed to start task" details, [ws])
        end
  end.

(** The turn count the request configures: [turns = 3] when absent. *)
Definition requested_turns (body : start_body) : json :=
  default (JNumber 3) (b_turns body).

(** The worker invokes [InitiatorWorkflow(...args)]; missing URL
    parameters take their defaults. *)
Definition invoke (wargs : list string) : option InitiatorWorkflow.Args :=
  match wargs with
  | [] => None
  | [t] => Some (InitiatorWorkflow.mkArgs t "http://agent-b:8080" "http://agent-a:8081")
  | [t; b] => Some (InitiatorWorkflow.mkArgs t b "http://agent-a:8081")
  | t :: b :: a :: _ => Some (InitiatorWorkflow.mkArgs t b a)
  end.

(** The bound the specification puts on the number of sent turns. *)
Definition within_turns (body : start_body) (c : InitiatorWorkflow.config) : Prop :=
  match requested_turns body with
  | JNumber n =>
      (Z.of_nat (length (InitiatorWorkflow.sentMessages
                           (InitiatorWorkflow.state c))) <= n)%Z
  | _ => True
  end.

(** A request for a one-turn conversation. *)
Definition one_turn : start_body := mkBody (Some "demo-1") (Some (JNumber 1)).

Definition no_env : process_env := mkEnv None None None.

(** GET /status/:taskId, lines 96-117. [describe] is the Temporal client:
    the status name and run id, or the error message when it throws. *)
Inductive status_response :=
| StatusOk (taskId workflowId status runId : string)
| StatusError (error details : string).

Definition status_task (taskId : string)
    (describe : string -> (string * string) + string) : status_response :=
  let wid := "initiator-" ++ taskId in
  match describe wid with
  | inl (status, runId) => StatusOk taskId wid status runId
  | inr details => StatusError "Failed to get status" details
  end.

End DemoDriver.

(** ** Agent A: A2A endpoint (agent-a/src/server.ts) *)

Module Server.

(** [req.body.params]; the envelope's fields are strings when present. *)
Record a2a_params := mkA2AParams {
  taskId : option string;
  messageId : option string;
  content : option string
}.

Record a2a_body := mkA2ABody {
  params : option a2a_params;
  id : option string
}.

(** JavaScript truthiness of an optional string. *)
Definition truthy (v : option string) : bool :=
  match v with
  | Some s => negb (String.eqb s "")
  | None => false
  end.

(** What [workflowHandle.signal] does. *)
Inductive signal_result :=
| Signaled
| WorkflowNotFoundError
| OtherError.

Inductive rpc :=
| RpcResult (status : string) (id : option string)
| RpcError (code : Z) (message : string) (id : option string).

Record response := mkResponse {
  http_status : nat;
  payload : rpc
}.

Inductive log_line :=
| console_log (s : string)
| console_warn (s : string)
| console_error (s : string).

(** The string a truthy field holds. *)
Definition str (v : option string) : string := default "" v.

(** [body.params || {}], line 49. *)
Definition params_or_empty (body : a2a_body) : a2a_params :=
  match params body with
  | Some p => p
  | None => mkA2AParams None None None
  end.

(** Lines 45-108. *)
Definition message_send (body : a2a_body)
    (signal : string -> InitiatorWorkflow.ReplyMessage -> signal_result)
  : response * list log_line :=
  let p := params_or_empty body in
  if negb (truthy (taskId p)) || negb (truthy (messageId p))
     || negb (truthy (content p))
  then
    (mkResponse 400
       (RpcError (-32602)
          "Missing required fields: taskId, messageId, content" (id body)),
     [])
  else
    let tid := str (taskId p) in
    let mid := str (messageId p) in
    let cont := str (content p) in
    let l0 := console_log ("Received reply " ++ mid ++ " for task " ++ tid) in
    let wid := "initiator-" ++ tid in
    let received :=
      mkResponse 200
        (RpcResult "received" (if truthy (id body) then id body else Some mid)) in
    match signal wid (InitiatorWorkflow.mkReply mid cont) with
    | Signaled =>
        (received,
         [l0; console_log ("Signaled workflow " ++ wid ++ " with reply " ++ mid)])
    | WorkflowNotFoundError =>
        (received,
         [l0; console_warn ("Workflow " ++ wid ++
                            " not found, reply may have arrived late")])
    | OtherError =>
        (mkResponse 500 (RpcError (-32603) "Internal server error" (id body)),
         [l0; console_error "Failed to signal workflow:";
          console_error "Error processing A2A message:"])
    end.


(** GET /a2a/.well-known/agent-card, lines 113-122. *)
Record AgentCard := mkCard {
  card_name : string;
  card_version : string;
  capabilities : list string;
  endpoints : list (string * string)
}.

Definition agent_card (env : DemoDriver.process_env) : AgentCard :=
  mkCard "agent-a" "1.0.0" ["chat"; "task-initiation"]
    [("message/send",
      DemoDriver.or_default (DemoDriver.AGENT_A_URL env) "http://agent-a:8081"
      ++ "/a2a/message/send")].

(** Lookup of a key in a JavaScript object literal. *)
Fixpoint endpoint (key : string) (l : list (string * string)) : option string :=
  match l with
  | [] => None
  | (k, v) :: l => if String.eqb k key then Some v else endpoint key l
  end.

End Server.

(** ** Agent A: the send activity and its retry configuration *)

Module Retry.

(** What [fetch] does: it rejects (network failure) or resolves with a
    response, whose body parses as JSON or does not. *)
Inductive fetch_result :=
| NetworkError
| HttpResponse (status : nat) (statusText : string) (body_is_json : bool).

(** An activity attempt returns or throws an error with a [name]. *)
Inductive attempt_result :=
| Returns
| Throws (name message : string).

(** src/activities/send-a2a-message.ts, lines 45-69: every non-2xx
    response ([!response.ok]) is thrown as a plain [Error]; a rejection of
    [fetch] or of [response.json()] is rethrown as it is. *)
Definition sendA2AMessage (r : fetch_result) : attempt_result :=
  match r with
  | NetworkError => Throws "TypeError" "fetch failed"
  | HttpResponse status text body_is_json =>
      if (200 <=? status)%nat && (status <=? 299)%nat then
        if body_is_json then Returns
        else Throws "SyntaxError" "Unexpected token in JSON"
      else Throws "Error" ("HTTP " ++ string_of_nat status ++ ": " ++ text)
  end.

Record RetryPolicy := mkPolicy {
  maximumAttempts : nat;
  initialInterval : Z;
  backoffCoefficient : Z;
  maximumInterval : Z;
  nonRetryableErrorTypes : list string
}.

(** The [retry] option of [proxyActivities], initiator-workflow.ts lines
    149-157, in milliseconds. It declares no non-retryable error type. *)
Definition send_policy : RetryPolicy :=
  mkPolicy 3 1000 2 10000 [].

(** The policy the repository's technical specification documents
    ("Activity Retry Policy"). *)
Definition documented_policy : RetryPolicy :=
  mkPolicy 3 1000 2 10000 ["AuthenticationError"; "InvalidRequestError"].

Record execution := mkExecution {
  attempts : nat;
  waits : list Z;
  final : attempt_result
}.

Definition backoff (p : RetryPolicy) (attempt : nat) : Z :=
  Z.min (initialInterval p * backoffCoefficient p ^ Z.of_nat (attempt - 1))
        (maximumInterval p).

(** Modelled from the spec: the durable-execution substrate's retry of a
    named external call (section 6, item 4), which is not part of the
    repository: attempt [k] runs the activity; a failure whose error type
    is declared non-retryable, or the last allowed attempt, ends the
    execution; otherwise the substrate waits
    [min(initial * coefficient^(k-1), cap)] and runs attempt [k+1].
    [more] counts the attempts still allowed after this one. *)
Fixpoint execute_from (p : RetryPolicy) (fetches : nat -> fetch_result)
    (k more : nat) : execution :=
  match sendA2AMessage (fetches k) with
  | Returns => mkExecution k [] Returns
  | Throws name msg =>
      if bool_decide (name ∈ nonRetryableErrorTypes p)
      then mkExecution k [] (Throws name msg)
      else match more with
           | O => mkExecution k [] (Throws name msg)
           | S more =>
               let e := execute_from p fetches (S k) more in
               mkExecution (attempts e) (backoff p k :: waits e) (final e)
           end
  end.

Definition execute (p : RetryPolicy) (fetches : nat -> fetch_result) : execution :=
  execute_from p fetches 1 (maximumAttempts p - 1).

(** Agent B answers every attempt with the same response. *)
Definition always (r : fetch_result) : nat -> fetch_result := fun _ => r.

Definition unauthorized : fetch_result :=
  HttpResponse 401 "Unauthorized" true.

Definition bad_request : fetch_result :=
  HttpResponse 400 "Bad Request" true.

End Retry.

(** ** Agent B: A2A endpoint and reply activity (agent-b/src/server.py and
       activities, as the technical specification gives them) *)

Module AgentBServer.

(** [body["params"]]; a missing key is [None]. *)
Record params := mkParams {
  taskId : option string;
  messageId : option string;
  replyTo : option string;
  content : option string
}.

Record body := mkBody {
  b_params : option params;
  b_id : option string
}.

(** What the handler asks of the Temporal client. *)
Inductive temporal_call :=
| StartWorkflow (id : string) (args : list string) (task_queue : string)
| SignalWorkflow (id signal : string) (payload : TaskWorkflow.signal_msg).

Inductive failure :=
| KeyError (key : string)
| TemporalError.

Inductive reply :=
| Received (id : string)
| Raises (f : failure).

(** [receive_message], lines 439-462: the five dictionary reads, the
    workflow start, the signal, and the read of [body["id"]] for the
    response, in this order. [start_ok] and [signal_ok] tell whether the
    client call returns or raises. *)
Definition receive_message (b : body) (start_ok signal_ok : string -> bool)
  : reply * list temporal_call :=
  match b_params b with
  | None => (Raises (KeyError "params"), [])
  | Some p =>
    match taskId p with
    | None => (Raises (KeyError "taskId"), [])
    | Some task_id =>
      match messageId p with
      | None => (Raises (KeyError "messageId"), [])
      | Some message_id =>
        match replyTo p with
        | None => (Raises (KeyError "replyTo"), [])
        | Some reply_to =>
          match content p with
          | None => (Raises (KeyError "content"), [])
          | Some cont =>
            let wid := "task-" ++ task_id in
            let start := StartWorkflow wid [task_id] "agent-b-tasks" in
            if start_ok wid then
              let sig := SignalWorkflow wid "inbound_message"
                           (TaskWorkflow.mkMsg message_id cont reply_to) in
              if signal_ok wid then
                match b_id b with
                | Some i => (Received i, [start; sig])
                | None => (Raises (KeyError "id"), [start; sig])
                end
              else (Raises TemporalError, [start; sig])
            else (Raises TemporalError, [start])
          end
        end
      end
    end
  end.

(** The JSON-RPC envelope Agent A's activity posts
    (send-a2a-message.ts, lines 33-43). *)
Definition payload (p : InitiatorWorkflow.SendA2AMessageParams) : body :=
  mkBody
    (Some (mkParams (Some (InitiatorWorkflow.p_taskId p))
             (Some (InitiatorWorkflow.p_messageId p))
             (Some (InitiatorWorkflow.replyTo p))
             (Some (InitiatorWorkflow.p_content p))))
    (Some (InitiatorWorkflow.p_messageId p)).

(** The envelope Agent B's [send_a2a_message] activity posts to the reply
    address (lines 616-632): no [replyTo], the message id as request id. *)
Definition reply_envelope (task_id message_id cont : string) : Server.a2a_body :=
  Server.mkA2ABody
    (Some (Server.mkA2AParams (Some task_id) (Some message_id) (Some cont)))
    (Some message_id).

(** [response.raise_for_status()], line 633: the activity raises unless
    the response is a success. *)
Definition send_outcome (r : Server.response) : TaskWorkflow.outcome :=
  if (200 <=? Server.http_status r)%nat && (Server.http_status r <=? 299)%nat
  then TaskWorkflow.Completed "received"
  else TaskWorkflow.Failed.

End AgentBServer.

(** ** Agent A: Langfuse client and the traced send activity *)

Module Langfuse.

Record client := mkClient {
  publicKey : string;
  secretKey : string;
  baseUrl : string
}.

(** The part of [process.env] the module reads. *)
Record env := mkEnv {
  LANGFUSE_PUBLIC_KEY : option string;
  LANGFUSE_SECRET_KEY : option string;
  LANGFUSE_HOST : option string
}.

(** [getLangfuseClient], langfuse.ts lines 13-31, on the module variable
    [langfuseClient]: the returned client, the new value of the variable,
    and the line logged. *)
Definition getLangfuseClient (langfuseClient : option client) (e : env)
  : option client * option client * list string :=
  match langfuseClient with
  | Some c => (Some c, Some c, [])
  | None =>
      let publicKey := DemoDriver.or_default (LANGFUSE_PUBLIC_KEY e) "" in
      let secretKey := DemoDriver.or_default (LANGFUSE_SECRET_KEY e) "" in
      if negb (String.eqb publicKey "") && negb (String.eqb secretKey "")
      then
        let c := mkClient publicKey secretKey
                   (DemoDriver.or_default (LANGFUSE_HOST e) "http://langfuse:3000") in
        (Some c, Some c, ["[Langfuse] Client initialized"])
      else (None, None, ["[Langfuse] Keys not configured, tracing disabled"])
  end.

(** Successive calls, each under the environment of its time. *)
Fixpoint calls (langfuseClient : option client) (envs : list env)
  : list (option client) :=
  match envs with
  | [] => []
  | e :: envs =>
      let '(r, st, _) := getLangfuseClient langfuseClient e in
      r :: calls st envs
  end.

Definition configured (e : env) : bool :=
  negb (String.eqb (DemoDriver.or_default (LANGFUSE_PUBLIC_KEY e) "") "") &&
  negb (String.eqb (DemoDriver.or_default (LANGFUSE_SECRET_KEY e) "") "").

(** What the traced activity does, in order. *)
Inductive op :=
| trace_create
| span_create
| fetch_call
| span_end (success : bool)
| trace_update (success : bool)
| flushAsync.

(** The traced [sendA2AMessage] (activities/send-a2a-message.ts with
    tracing, lines 173-260). [langfuse] is what [getLangfuseClient]
    returned; [flush1] and [flush2] are the outcomes of [flushAsync] in
    the [try] block and in the [catch] block: [None] when it resolves, the
    error when it rejects. A rejection inside [try] is caught like any
    other error. *)
Definition sendA2AMessage (langfuse : option client) (r : Retry.fetch_result)
    (flush1 flush2 : option (string * string))
  : Retry.attempt_result * list op :=
  let throws (e : string * string) := Retry.Throws (fst e) (snd e) in
  match langfuse with
  | None => (Retry.sendA2AMessage r, [fetch_call])
  | Some _ =>
      let start := [trace_create; span_create; fetch_call] in
      let catch (err : Retry.attempt_result) (done : list op) :=
        let ops := (done ++ [span_end false; trace_update false; flushAsync])%list in
        match flush2 with
        | None => (err, ops)
        | Some e => (throws e, ops)
        end in
      match Retry.sendA2AMessage r with
      | Retry.Returns =>
          let ops := (start ++ [span_end true; trace_update true; flushAsync])%list in
          match flush1 with
          | None => (Retry.Returns, ops)
          | Some e => catch (throws e) ops
          end
      | Retry.Throws n m => catch (Retry.Throws n m) start
      end
  end.

Definition is_fetch (o : op) : bool :=
  match o with fetch_call => true | _ => false end.

Definition is_flush (o : op) : bool :=
  match o with flushAsync => true | _ => false end.

Definition count (p : op -> bool) (ops : list op) : nat :=
  length (filter (fun x => p x = true) ops).

End Langfuse.

(** * Proofs: TaskWorkflow *)

Module TaskWorkflowFacts.
Import TaskWorkflow.

Lemma exec_snoc tid acts a :
  exec tid (acts ++ [a]) = step (exec tid acts) a.
Proof. unfold exec. now rewrite foldl_app. Qed.

Lemma seen_elem mid st :
  seen mid st = true <-> mid ∈ message_id <$> inbound_messages st.
Proof.
  unfold seen. rewrite existsb_exists, list_elem_of_fmap. split.
  - intros (m & Hin & Heq). apply String.eqb_eq in Heq.
    exists m. split; [done | now apply list_elem_of_In].
  - intros (m & -> & Hin). exists m. split; [now apply list_elem_of_In |].
    apply String.eqb_refl.
Qed.

Lemma in_outbox_elem rid st :
  in_outbox rid st = true <-> rid ∈ out_message_id <$> outbound_messages st.
Proof.
  unfold in_outbox. rewrite existsb_exists, list_elem_of_fmap. split.
  - intros (m & Hin & Heq). apply String.eqb_eq in Heq.
    exists m. split; [done | now apply list_elem_of_In].
  - intros (m & -> & Hin). exists m. split; [now apply list_elem_of_In |].
    apply String.eqb_refl.
Qed.

(** The segments other than the head of the handler leave the inbound
    ledger alone. *)
Lemma dispatch_inbound st mid rto resp :
  inbound_messages (fst (dispatch st mid rto resp)) = inbound_messages st.
Proof.
  unfold dispatch. destruct (negb (in_outbox _ st)); simpl;
    destruct (list_find _ _) as [[i ob]|]; simpl; try done;
    destruct (negb (sent ob)); done.
Qed.

Lemma resume_inbound f o st :
  inbound_messages (fst (resume f o st)) = inbound_messages st.
Proof.
  destruct o as [r|]; [|done]. destruct f; simpl; try done.
  apply dispatch_inbound.
Qed.

Lemma settle_state st s p h : wf_state (settle st s p h) = st.
Proof. now destruct s. Qed.

Lemma step_resolve_inbound c i o :
  inbound_messages (wf_state (step c (Resolve i o))) =
  inbound_messages (wf_state c).
Proof.
  simpl. destruct (pending c !! i) as [[a f]|]; [|done].
  pose proof (resume_inbound f o (wf_state c)) as H.
  destruct (resume f o (wf_state c)) as [st s]. now rewrite settle_state.
Qed.

(** A delivery either finds the id and changes nothing, or appends one
    record carrying that id. *)
Lemma step_signal_cases c msg now :
  (seen (msg_message_id msg) (wf_state c) = true /\
   step c (Signal msg now) = c) \/
  (seen (msg_message_id msg) (wf_state c) = false /\
   inbound_messages (wf_state (step c (Signal msg now))) =
     (inbound_messages (wf_state c) ++
       [mkInbound (msg_message_id msg) (msg_content msg) (msg_reply_to msg) now])%list).
Proof.
  simpl. unfold inbound_message.
  destruct (seen _ _) eqn:Hs.
  - left. split; [done|]. now destruct c.
  - right. split; [done|]. unfold process.
    destruct (str_in _ _); simpl; done.
Qed.

Lemma records_of_seen mid c :
  seen mid (wf_state c) = true <-> (0 < length (records_of mid c))%nat.
Proof.
  rewrite seen_elem. unfold records_of.
  induction (inbound_messages (wf_state c)) as [|m l IH]; simpl.
  - rewrite elem_of_nil. lia.
  - rewrite elem_of_cons, filter_cons. destruct (decide (message_id m = mid)).
    + simpl. split; [lia | intros _; left; done].
    + rewrite IH. split; [intros [?|?]; [congruence | done] | tauto].
Qed.

Lemma any_delivery_snoc mid acts a :
  existsb (is_delivery mid) (acts ++ [a]) =
  existsb (is_delivery mid) acts || is_delivery mid a.
Proof. rewrite existsb_app. simpl. now rewrite orb_false_r. Qed.

(** The number of records for an id counts whether it was ever delivered. *)
Lemma records_count tid acts mid :
  length (records_of mid (exec tid acts)) =
  if existsb (is_delivery mid) acts then 1%nat else 0%nat.
Proof.
  induction acts as [|a acts IH] using rev_ind; [done|].
  rewrite exec_snoc, any_delivery_snoc.
  set (c := exec tid acts) in *.
  destruct a as [msg now | i o].
  - destruct (step_signal_cases c msg now) as [[Hs ->] | [Hs Hin]].
    + rewrite IH. cbn [is_delivery].
      destruct (String.eqb_spec (msg_message_id msg) mid) as [Heq|Hne];
        [| now rewrite orb_false_r].
      rewrite Heq in Hs. apply records_of_seen in Hs. rewrite IH in Hs.
      destruct (existsb _ acts); [done | lia].
    + unfold records_of in *. rewrite Hin, filter_app, length_app, IH.
      cbn [is_delivery]. rewrite filter_cons, filter_nil. cbn [message_id].
      destruct (String.eqb_spec (msg_message_id msg) mid) as [Heq|Hne].
      * rewrite decide_True by done. rewrite Heq in Hs. cbn [length].
        assert (Hz : length (filter (fun m => message_id m = mid)
                      (inbound_messages (wf_state c))) = 0%nat).
        { destruct (length _) eqn:E; [done|].
          assert (seen mid (wf_state c) = true) as Hc;
            [apply records_of_seen; unfold records_of; lia | congruence]. }
        rewrite IH in Hz. destruct (existsb _ acts); [done | simpl; lia].
      * rewrite decide_False by done. cbn [length]. rewrite orb_false_r. lia.
  - unfold records_of. rewrite step_resolve_inbound. fold (records_of mid c).
    rewrite IH. simpl. now rewrite orb_false_r.
Qed.

(** *** How one move changes a configuration *)

Lemma reply_id_inj m1 m2 : reply_id_of m1 = reply_id_of m2 -> m1 = m2.
Proof. unfold reply_id_of. cbn. intros H. now simplify_eq. Qed.

Lemma mark_sent_out_ids i st :
  out_message_id <$> outbound_messages (mark_sent i st) =
  out_message_id <$> outbound_messages st.
Proof.
  unfold mark_sent. simpl.
  rewrite (list_fmap_alter out_message_id _ (fun x => x)).
  - now apply list_alter_id.
  - now apply Forall_forall.
Qed.

Lemma dispatch_out_ids st mid rto resp :
  out_message_id <$> outbound_messages (fst (dispatch st mid rto resp)) =
  if in_outbox (reply_id_of mid) st
  then out_message_id <$> outbound_messages st
  else ((out_message_id <$> outbound_messages st) ++ [reply_id_of mid])%list.
Proof.
  unfold dispatch. destruct (in_outbox _ st); simpl.
  - destruct (list_find _ _) as [[i ob]|]; simpl; [|done].
    now destruct (negb (sent ob)).
  - destruct (list_find _ _) as [[i ob]|]; simpl;
      [destruct (negb (sent ob)); simpl|]; now rewrite fmap_app.
Qed.

Lemma dispatch_status st mid rto resp a f :
  snd (dispatch st mid rto resp) = Awaiting a f ->
  frame_mid f = mid /\ tagged a f.
Proof.
  unfold dispatch.
  destruct (list_find _ _) as [[i ob]|]; simpl; [|done].
  destruct (negb (sent ob)); simpl; [|done].
  intros [= <- <-]. simpl. eauto.
Qed.

Lemma resume_status f o st a' f' :
  snd (resume f o st) = Awaiting a' f' ->
  frame_mid f' = frame_mid f /\ tagged a' f'.
Proof.
  destruct o as [r|]; [|done]. destruct f; simpl.
  - intros [= <- <-]. simpl. eauto.
  - apply dispatch_status.
  - done.
Qed.

Lemma resume_out_ids f o st :
  (out_message_id <$> outbound_messages (fst (resume f o st)) =
    out_message_id <$> outbound_messages st) \/
  ((reply_id_of (frame_mid f) ∉ out_message_id <$> outbound_messages st) /\
   out_message_id <$> outbound_messages (fst (resume f o st)) =
     ((out_message_id <$> outbound_messages st) ++
        [reply_id_of (frame_mid f)])%list).
Proof.
  destruct o as [r|]; [|now left]. destruct f; simpl.
  - now left.
  - rewrite dispatch_out_ids. destruct (in_outbox _ st) eqn:E; [now left|].
    right. split; [|done]. rewrite <- in_outbox_elem. congruence.
  - left. apply mark_sent_out_ids.
Qed.

(** Resolving the [i]-th awaited activity: the handler leaves the pending
    list, and rejoins it at the end when it suspends again. *)
Lemma step_resolve c i o a f :
  pending c !! i = Some (a, f) ->
  let c' := step c (Resolve i o) in
  ids c' = ids c /\
  ((out_ids c' = out_ids c) \/
   ((reply_id_of (frame_mid f) ∉ out_ids c) /\
    out_ids c' = (out_ids c ++ [reply_id_of (frame_mid f)])%list)) /\
  ((pending c' = delete i (pending c) /\
    history c' = (history c ++ [Resolved f a o])%list) \/
   (exists a' f', frame_mid f' = frame_mid f /\ tagged a' f' /\
      pending c' = (delete i (pending c) ++ [(a', f')])%list /\
      history c' = (history c ++ [Resolved f a o; Scheduled f' a'])%list /\
      snd (resume f o (wf_state c)) = Awaiting a' f')).
Proof.
  intros Hp. simpl. rewrite Hp. unfold ids, out_ids.
  pose proof (resume_inbound f o (wf_state c)) as Hin.
  pose proof (resume_out_ids f o (wf_state c)) as Hout.
  pose proof (resume_status f o (wf_state c)) as Hst.
  destruct (resume f o (wf_state c)) as [st s]. simpl in *.
  rewrite settle_state, Hin. split; [done|]. split; [done|].
  destruct s as [| |a' f']; simpl; [now left | now left |].
  right. exists a', f'. destruct (Hst a' f' eq_refl) as [? ?].
  now rewrite <- app_assoc.
Qed.

(** A completed transmission ends its handler. *)
Lemma step_resolve_transmission c i r a f rid :
  pending c !! i = Some (a, f) -> tagged a f ->
  is_transmission rid (Resolved f a (Completed r)) = true ->
  rid = reply_id_of (frame_mid f) /\
  pending (step c (Resolve i (Completed r))) = delete i (pending c).
Proof.
  intros Hp Ht Hx. simpl in Hx. destruct a as [| |url tid mid cont]; try done.
  apply String.eqb_eq in Hx. subst mid.
  destruct f as [| |m rto resp rid' ob]; simpl in Ht.
  - done.
  - now destruct Ht.
  - destruct Ht as [[tid' [= -> -> -> ->]] ->]. split; [done|].
    simpl. now rewrite Hp.
Qed.

(** Delivering a signal: a duplicate changes nothing; a new message is
    appended and its handler suspends on its first activity. *)
Lemma step_signal c msg now :
  let mid := msg_message_id msg in
  let c' := step c (Signal msg now) in
  ((mid ∈ ids c) /\ c' = c) \/
  ((mid ∉ ids c) /\ ids c' = (ids c ++ [mid])%list /\ out_ids c' = out_ids c /\
   exists a f, frame_mid f = mid /\ tagged a f /\
     pending c' = (pending c ++ [(a, f)])%list /\
     history c' = (history c ++ [Scheduled f a])%list).
Proof.
  simpl. unfold inbound_message, ids, out_ids.
  destruct (seen _ _) eqn:Hs.
  - left. split; [now apply seen_elem | now destruct c].
  - right. split; [rewrite <- seen_elem; congruence|].
    unfold process. destruct (str_in _ _); simpl; rewrite fmap_app; simpl;
      (split; [done|]); (split; [done|]); eexists _, _; simpl.
      all: repeat split; simpl; eauto.
Qed.

(** *** Invariants of every schedule *)

Lemma exec_ind (P : config -> Prop) tid :
  P (init tid) -> (forall c a, P c -> P (step c a)) ->
  forall acts, P (exec tid acts).
Proof.
  intros H0 Hs acts. induction acts as [|a acts IH] using rev_ind; [done|].
  rewrite exec_snoc. now apply Hs.
Qed.

Lemma delete_lookup_NoDup {A} (l : list A) i x :
  NoDup l -> l !! i = Some x -> x ∉ delete i l.
Proof.
  intros Hnd Hl. rewrite delete_take_drop.
  rewrite <- (take_drop_middle l i x Hl) in Hnd.
  apply NoDup_app in Hnd as (_ & Hd & Hnd').
  apply NoDup_cons in Hnd' as [Hx _].
  rewrite elem_of_app. intros [Hin | Hin]; [|done].
  apply (Hd x Hin). left.
Qed.

Lemma delete_elem_of {A} (l : list A) i x : x ∈ delete i l -> x ∈ l.
Proof. intros H. eapply elem_of_sublist; [exact H | apply sublist_delete]. Qed.

Lemma pend_ids_lookup c i a f :
  pending c !! i = Some (a, f) -> pend_ids c !! i = Some (frame_mid f).
Proof. intros H. unfold pend_ids. now rewrite list_lookup_fmap, H. Qed.

Lemma Inv1_init tid : Inv1 (init tid).
Proof.
  split; unfold pend_ids; simpl.
  - constructor.
  - intros m Hm. now apply elem_of_nil in Hm.
  - intros a f Hm. now apply elem_of_nil in Hm.
Qed.

Lemma Inv1_step c a : Inv1 c -> Inv1 (step c a).
Proof.
  intros [Hnd Hp Ht]. destruct a as [msg now | i o].
  - destruct (step_signal c msg now) as [[_ ->] | (Hnew & Hids & _ & a & f & Hf & Hta & Hpe & _)];
      [done|].
    split; unfold pend_ids in *; rewrite ?Hpe, ?Hids, ?fmap_app; simpl.
    + apply NoDup_app. split; [done|]. split; [|apply NoDup_singleton].
      intros x Hx. rewrite list_elem_of_singleton, Hf. intros ->.
      apply Hnew, Hp, Hx.
    + intros m. rewrite !elem_of_app, Hf. intros [?|?]; [left; auto | now right].
    + intros a0 f0. rewrite elem_of_app, list_elem_of_singleton.
      intros [?|[= -> ->]]; auto.
  - destruct (pending c !! i) as [[a f]|] eqn:Hl;
      [|simpl; rewrite Hl; done].
    pose proof (pend_ids_lookup _ _ _ _ Hl) as Hl'.
    destruct (step_resolve c i o a f Hl) as (Hids & _ & Hcase).
    destruct Hcase as [[Hpe _] | (a' & f' & Hf & Hta & Hpe & _ & _)];
      split; unfold pend_ids in *; rewrite ?Hpe, ?Hids, ?fmap_app,
        ?list_fmap_delete; simpl.
    + eapply sublist_NoDup; [exact Hnd | apply sublist_delete].
    + intros m Hm. apply Hp. eapply delete_elem_of, Hm.
    + intros a0 f0 Hm. eapply Ht, delete_elem_of, Hm.
    + apply NoDup_app. split; [|split; [|apply NoDup_singleton]].
      * eapply sublist_NoDup; [exact Hnd | apply sublist_delete].
      * intros x Hx. rewrite list_elem_of_singleton, Hf. intros ->.
        now apply (delete_lookup_NoDup _ _ _ Hnd Hl').
    + intros m. rewrite elem_of_app, list_elem_of_singleton, Hf.
      intros [Hm | ->]; apply Hp; [eapply delete_elem_of, Hm|].
      apply list_elem_of_lookup; eauto.
    + intros a0 f0. rewrite elem_of_app, list_elem_of_singleton.
      intros [Hm|[= -> ->]]; [|done]. eapply Ht, delete_elem_of, Hm.
Qed.

Lemma Inv1_exec tid acts : Inv1 (exec tid acts).
Proof. apply exec_ind; [apply Inv1_init | apply Inv1_step]. Qed.

Lemma transmissions_app rid h l :
  transmissions rid (h ++ l) =
  (transmissions rid h + transmissions rid l)%nat.
Proof. unfold transmissions. now rewrite filter_app, length_app. Qed.

Lemma transmissions_one rid e :
  transmissions rid [e] = if is_transmission rid e then 1%nat else 0%nat.
Proof.
  unfold transmissions. rewrite filter_cons, filter_nil.
  destruct (is_transmission rid e); [now rewrite decide_True | now rewrite decide_False].
Qed.

Lemma transmissions_nil rid : transmissions rid [] = 0%nat.
Proof. done. Qed.

Lemma transmissions_pair rid f a f' a' o :
  transmissions rid [Scheduled f a; Resolved f' a' o] =
  if is_transmission rid (Resolved f' a' o) then 1%nat else 0%nat.
Proof.
  change [Scheduled f a; Resolved f' a' o]
    with ([Scheduled f a] ++ [Resolved f' a' o])%list.
  now rewrite transmissions_app, !transmissions_one.
Qed.

Lemma InvT_init tid : InvT (init tid).
Proof. intros rid. unfold transmissions. simpl. lia. Qed.

Lemma InvT_step c a : Inv1 c -> InvT c -> InvT (step c a).
Proof.
  intros [Hnd Hp Ht] HT. destruct a as [msg now | i o].
  - destruct (step_signal c msg now)
      as [[_ ->] | (Hnew & Hids & _ & a & f & Hf & Hta & Hpe & Hh)]; [done|].
    intros rid. rewrite Hh, transmissions_app, transmissions_one.
    cbn [is_transmission]. rewrite Nat.add_0_r. intros Hpos.
    destruct (HT rid Hpos) as (H1 & m & -> & Hm & Hmp). split; [done|].
    exists m. split; [done|]. unfold pend_ids in *. rewrite Hids, Hpe, fmap_app.
    cbn [fmap list_fmap snd]. rewrite !elem_of_app, list_elem_of_singleton, Hf.
    split; [now left|]. intros [?| Hx]; [done|].
    apply list_elem_of_singleton in Hx. congruence.
  - destruct (pending c !! i) as [[a f]|] eqn:Hl;
      [|simpl; rewrite Hl; done].
    pose proof (pend_ids_lookup _ _ _ _ Hl) as Hl'.
    assert (Hta : tagged a f) by (apply Ht, list_elem_of_lookup; eauto).
    assert (Hmp : frame_mid f ∈ pend_ids c) by (apply list_elem_of_lookup; eauto).
    destruct (step_resolve c i o a f Hl) as (Hids & _ & Hcase).
    intros rid.
    destruct (is_transmission rid (Resolved f a o)) eqn:Hx.
    + (* this move completes a transmission for [rid] *)
      assert (exists r, o = Completed r) as [r ->].
      { simpl in Hx. destruct a; try done. destruct o; [eauto | done]. }
      destruct (step_resolve_transmission c i r a f rid Hl Hta Hx) as [-> Hpe].
      assert (Hz : transmissions (reply_id_of (frame_mid f)) (history c) = 0%nat).
      { destruct (transmissions _ (history c)) eqn:E; [done|].
        destruct (HT (reply_id_of (frame_mid f))) as (_ & m & Hm & _ & Hn); [lia|].
        apply reply_id_inj in Hm. now subst m. }
      assert (Hh : history (step c (Resolve i (Completed r))) =
                   (history c ++ [Resolved f a (Completed r)])%list).
      { destruct Hcase as [[_ Hh] | (a' & f' & _ & _ & Hpe' & _ & _)]; [done|].
        rewrite Hpe in Hpe'. apply (f_equal length) in Hpe'.
        rewrite length_app in Hpe'. simpl in Hpe'. lia. }
      intros _. rewrite Hh, transmissions_app, transmissions_one, Hx, Hz.
      split; [done|]. exists (frame_mid f). split; [done|].
      rewrite Hids. split; [now apply Hp|].
      unfold pend_ids in *. rewrite Hpe, list_fmap_delete.
      now apply delete_lookup_NoDup.
    + assert (Htx : transmissions rid (history (step c (Resolve i o))) =
                    transmissions rid (history c)).
      { destruct Hcase as [[_ Hh] | (a' & f' & _ & _ & _ & Hh & _)];
          rewrite Hh, transmissions_app.
        - rewrite transmissions_one, Hx. lia.
        - change [Resolved f a o; Scheduled f' a']
            with ([Resolved f a o] ++ [Scheduled f' a'])%list.
          rewrite transmissions_app, !transmissions_one, Hx. simpl. lia. }
      rewrite Htx. intros Hpos.
      destruct (HT rid Hpos) as (H1 & m & -> & Hm & Hn). split; [done|].
      exists m. split; [done|]. rewrite Hids. split; [done|].
      unfold pend_ids in *.
      destruct Hcase as [[Hpe _] | (a' & f' & Hf & _ & Hpe & _ & _)];
        rewrite Hpe, ?fmap_app, ?list_fmap_delete; simpl.
      * intros Hin. eapply Hn, delete_elem_of, Hin.
      * rewrite elem_of_app, list_elem_of_singleton, Hf.
        intros [Hin | ->]; [eapply Hn, delete_elem_of, Hin | done].
Qed.

Lemma InvH_init tid : InvH (init tid).
Proof. intros e He. now apply elem_of_nil in He. Qed.

Lemma InvH_step c a : Inv1 c -> InvH c -> InvH (step c a).
Proof.
  intros [Hnd Hp Ht] HH. destruct a as [msg now | i o].
  - destruct (step_signal c msg now)
      as [[_ ->] | (Hnew & Hids & _ & a & f & Hf & Hta & Hpe & Hh)]; [done|].
    intros e. rewrite Hh, Hids, elem_of_app, list_elem_of_singleton.
    intros [He | ->]; simpl; rewrite elem_of_app.
    + destruct (HH e He). auto.
    + rewrite Hf, list_elem_of_singleton. auto.
  - destruct (pending c !! i) as [[a f]|] eqn:Hl;
      [|simpl; rewrite Hl; done].
    pose proof (pend_ids_lookup _ _ _ _ Hl) as Hl'.
    assert (Hta : tagged a f) by (apply Ht, list_elem_of_lookup; eauto).
    assert (Hm : frame_mid f ∈ ids c).
    { apply Hp, list_elem_of_lookup; eauto. }
    destruct (step_resolve c i o a f Hl) as (Hids & _ & Hcase).
    intros e. rewrite Hids.
    destruct Hcase as [[_ Hh] | (a' & f' & Hf & Hta' & _ & Hh & _)]; rewrite Hh;
      rewrite elem_of_app, ?elem_of_cons, ?elem_of_nil.
    + intros [He | [-> | []]]; [now apply HH | done].
    + intros [He | [-> | [-> | []]]]; [now apply HH | done |].
      simpl. now rewrite Hf.
Qed.

Lemma InvO_init tid : InvO (init tid).
Proof.
  split; unfold out_ids; simpl; [constructor|].
  intros rid H. now apply elem_of_nil in H.
Qed.

Lemma InvO_step c a : Inv1 c -> InvO c -> InvO (step c a).
Proof.
  intros [Hnd Hp Ht] [HO1 HO2]. destruct a as [msg now | i o].
  - destruct (step_signal c msg now)
      as [[_ ->] | (Hnew & Hids & Hout & _)]; [done|].
    split; rewrite Hout; [done|]. intros rid Hr.
    destruct (HO2 rid Hr) as (m & -> & Hm). exists m. split; [done|].
    rewrite Hids, elem_of_app. now left.
  - destruct (pending c !! i) as [[a f]|] eqn:Hl;
      [|simpl; rewrite Hl; done].
    pose proof (pend_ids_lookup _ _ _ _ Hl) as Hl'.
    assert (Hm : frame_mid f ∈ ids c).
    { apply Hp, list_elem_of_lookup; eauto. }
    destruct (step_resolve c i o a f Hl) as (Hids & [Hout | [Hnew Hout]] & _);
      split; rewrite Hout, ?Hids; try done.
    + apply NoDup_app. split; [done|]. split; [|apply NoDup_singleton].
      intros x Hx. rewrite list_elem_of_singleton. now intros ->.
    + intros rid. rewrite elem_of_app, list_elem_of_singleton.
      intros [Hr | ->]; [now apply HO2 | eauto].
Qed.

Lemma invariants tid acts :
  let c := exec tid acts in Inv1 c /\ InvT c /\ InvH c /\ InvO c.
Proof.
  apply (exec_ind (fun c => Inv1 c /\ InvT c /\ InvH c /\ InvO c)).
  - auto using Inv1_init, InvT_init, InvH_init, InvO_init.
  - intros c a (H1 & HT & HH & HO).
    auto using Inv1_step, InvT_step, InvH_step, InvO_step.
Qed.

(** *** The outbox under repeated dispatch *)

Lemma first_sent_find rid l :
  first_sent rid l =
  (fun p => sent (snd p)) <$> list_find (fun m => out_message_id m = rid) l.
Proof.
  induction l as [|m l IH]; [done|]. cbn [first_sent list_find].
  destruct (decide (out_message_id m = rid)); [done|].
  rewrite IH. now destruct (list_find _ l) as [[j x]|].
Qed.

Lemma first_sent_app rid l k :
  first_sent rid (l ++ k) =
  match first_sent rid l with Some b => Some b | None => first_sent rid k end.
Proof.
  induction l as [|m l IH]; [done|]. simpl.
  now destruct (decide (out_message_id m = rid)).
Qed.

Lemma first_sent_None rid l :
  first_sent rid l = None <-> rid ∉ out_message_id <$> l.
Proof.
  induction l as [|m l IH]; simpl.
  - split; [intros _ H; now apply elem_of_nil in H | done].
  - rewrite not_elem_of_cons. destruct (decide (out_message_id m = rid)).
    + split; [done | intros [? _]; congruence].
    + rewrite IH. split; [intros ?; split; [congruence | done] | tauto].
Qed.

(** Marking the record found for [rid'] raises its flag and touches no
    other reply id's first record. *)
Lemma first_sent_mark rid rid' l i ob :
  list_find (fun m => out_message_id m = rid') l = Some (i, ob) ->
  first_sent rid
    (alter (fun m => mkOutbound (out_message_id m) (recipient_url m) true) i l) =
  if decide (rid = rid') then Some true else first_sent rid l.
Proof.
  revert i. induction l as [|m l IH]; intros i; [done|]. cbn [list_find].
  destruct (decide (out_message_id m = rid')) as [Hm|Hm].
  - intros [= <- <-]. simpl.
    destruct (decide (rid = rid')) as [->|Hne].
    + now rewrite decide_True.
    + rewrite !decide_False by congruence. done.
  - destruct (list_find _ l) as [[j x]|] eqn:Hf; [|done].
    intros [= <- <-]. simpl.
    destruct (decide (out_message_id m = rid)) as [Hr|Hr].
    + rewrite decide_False by congruence. done.
    + now apply IH.
Qed.

(** One run of the dispatch sequence: what it transmits and what it does
    to the first record of every reply id. *)
Lemma dispatch_run_spec st mid rto resp o rid :
  let r := dispatch_run st mid rto resp o in
  (transmissions rid (snd r) <= budget rid st)%nat /\
  (transmissions rid (snd r) + budget rid (fst r) <= budget rid st)%nat.
Proof.
  unfold dispatch_run, dispatch, budget.
  set (rid' := reply_id_of mid).
  set (st1 := if negb (in_outbox rid' st) then _ else st).
  assert (Hst1 : first_sent rid (outbound_messages st1) =
                 match first_sent rid (outbound_messages st) with
                 | Some b => Some b
                 | None => if decide (rid = rid') then Some false else None
                 end).
  { subst st1. destruct (in_outbox rid' st) eqn:Hin; simpl.
    - destruct (first_sent rid (outbound_messages st)) eqn:E; [done|].
      destruct (decide (rid = rid')) as [->|]; [|done].
      apply first_sent_None in E. apply in_outbox_elem in Hin. done.
    - rewrite first_sent_app. simpl.
      destruct (first_sent rid _); [done|].
      destruct (decide (rid = rid')) as [->|];
        [now rewrite decide_True | now rewrite decide_False]. }
  pose proof (first_sent_find rid' (outbound_messages st1)) as Hfind.
  destruct (list_find _ (outbound_messages st1)) as [[i ob]|] eqn:Hf;
    cbn [fmap option_fmap option_map snd fst] in *.
  - destruct (sent ob) eqn:Hs; cbn [negb snd fst].
    + rewrite transmissions_nil, Hst1.
      destruct (first_sent rid (outbound_messages st)) as [[]|]; simpl; try lia.
      destruct (decide (rid = rid')); simpl; lia.
    + rewrite transmissions_pair. cbn [is_transmission].
      destruct o as [r|]; cbn [resume fst mark_sent outbound_messages].
      * rewrite (first_sent_mark rid rid' _ i ob Hf).
        destruct (decide (rid = rid')) as [->|Hne].
        -- rewrite String.eqb_refl.
           rewrite Hst1 in Hfind.
           destruct (first_sent rid' (outbound_messages st)) as [[]|];
             simpl in *; [congruence | lia | lia].
        -- assert (String.eqb rid' rid = false) as ->
             by (apply String.eqb_neq; congruence).
           rewrite Hst1.
           destruct (first_sent rid (outbound_messages st)) as [[]|]; simpl; lia.
      * rewrite Hst1.
        destruct (first_sent rid (outbound_messages st)) as [[]|]; simpl; try lia.
        destruct (decide (rid = rid')); simpl; lia.
  - rewrite transmissions_nil, Hst1.
    destruct (first_sent rid (outbound_messages st)) as [[]|]; simpl; try lia.
    destruct (decide (rid = rid')); simpl; lia.
Qed.

Lemma dispatch_runs_budget calls : forall st rid,
  (transmissions rid (snd (dispatch_runs st calls)) <= budget rid st)%nat.
Proof.
  induction calls as [|d ds IH]; intros st rid; simpl.
  - unfold transmissions. simpl. lia.
  - pose proof (dispatch_run_spec st (dc_mid d) (dc_rto d) (dc_response d)
                  (dc_outcome d) rid) as [_ H2].
    destruct (dispatch_run st _ _ _ _) as [st1 h1]. simpl in H2.
    specialize (IH st1 rid). destruct (dispatch_runs st1 ds) as [st2 h2].
    simpl in *. rewrite transmissions_app. lia.
Qed.

Lemma budget_le_1 rid st : (budget rid st <= 1)%nat.
Proof. unfold budget. destruct (first_sent _ _) as [[]|]; lia. Qed.

(** *** Order of operations inside the handler *)

(** The exact effect of delivering a message the guard admits. *)
Lemma step_signal_new c msg now :
  msg_message_id msg ∉ ids c ->
  step c (Signal msg now) =
  let mid := msg_message_id msg in
  let cont := msg_content msg in
  let rto := msg_reply_to msg in
  let st := mkState (task_id (wf_state c))
              (inbound_messages (wf_state c) ++ [mkInbound mid cont rto now])
              (outbound_messages (wf_state c)) in
  if str_in "EXECUTE_ORDER_66" cont
  then mkConfig st (pending c ++ [(crash_worker, at_crash_worker mid cont rto)])
         (history c ++ [Scheduled (at_crash_worker mid cont rto) crash_worker])
  else mkConfig st
         (pending c ++ [(process_message (task_id (wf_state c)) mid cont,
                         at_process_message mid cont rto)])
         (history c ++ [Scheduled (at_process_message mid cont rto)
                          (process_message (task_id (wf_state c)) mid cont)]).
Proof.
  intros Hnew. cbn [step]. unfold inbound_message.
  destruct (seen _ _) eqn:Hs; [now apply seen_elem in Hs|].
  unfold process. now destruct (str_in _ _).
Qed.

(** Processing is reached from the crash checkpoint only. *)
Lemma resume_process_frame f o st a' m cont rto :
  snd (resume f o st) = Awaiting a' (at_process_message m cont rto) ->
  f = at_crash_worker m cont rto /\ exists res, o = Completed res.
Proof.
  destruct o as [res|]; [|done]. destruct f; simpl.
  - intros [= _ -> -> ->]. eauto.
  - unfold dispatch. destruct (list_find _ _) as [[i ob]|]; simpl; [|done].
    now destruct (negb (sent ob)).
  - done.
Qed.

Lemma InvC_init tid : InvC (init tid).
Proof. intros i m cont rto a H. done. Qed.

Lemma InvC_step c a : Inv1 c -> InvC c -> InvC (step c a).
Proof.
  intros [Hnd Hp Ht] HC. destruct a as [msg now | i o].
  - destruct (step_signal c msg now) as [[_ ->] | (Hnew & _)]; [done|].
    rewrite (step_signal_new c msg now Hnew). cbv zeta.
    destruct (str_in _ (msg_content msg)) eqn:Htr; unfold InvC; cbn [history];
      intros k m cont rto a Hk Hfire;
      (destruct (decide (k < length (history c))%nat) as [Hlt|Hge];
       [ rewrite lookup_app_l in Hk by done;
         destruct (HC k m cont rto a Hk Hfire) as (j & res & -> & Hj);
         exists j, res; split; [done|];
         rewrite lookup_app_l by lia; done
       | rewrite lookup_app_r in Hk by lia;
         destruct (k - length (history c))%nat; [|done];
         simpl in Hk; simplify_eq; congruence ]).
  - destruct (pending c !! i) as [[a f]|] eqn:Hl;
      [|simpl; rewrite Hl; done].
    assert (Hta : tagged a f) by (apply Ht, list_elem_of_lookup; eauto).
    destruct (step_resolve c i o a f Hl) as (_ & _ & Hcase).
    intros k m cont rto a0 Hk Hfire.
    destruct Hcase as [[_ Hh] | (a' & f' & _ & _ & _ & Hh & Hres)];
      rewrite Hh in Hk |- *;
      (destruct (decide (k < length (history c))%nat) as [Hlt|Hge];
       [ rewrite lookup_app_l in Hk by done;
         destruct (HC k m cont rto a0 Hk Hfire) as (j & res & -> & Hj);
         exists j, res; split; [done|];
         rewrite lookup_app_l by lia; done
       | rewrite lookup_app_r in Hk by lia ]).
    + destruct (k - length (history c))%nat; [|done]. done.
    + destruct (k - length (history c))%nat as [|[|n]] eqn:Hk'; try done.
      simpl in Hk. injection Hk as -> ->.
      apply resume_process_frame in Hres as [-> [res ->]].
      simpl in Hta. subst a.
      exists (length (history c)), res. split; [lia|].
      rewrite lookup_app_r by lia. now rewrite Nat.sub_diag.
Qed.

Lemma InvC_exec tid acts : InvC (exec tid acts).
Proof.
  apply (exec_ind (fun c => Inv1 c /\ InvC c)).
  - auto using Inv1_init, InvC_init.
  - intros c a [? ?]. auto using Inv1_step, InvC_step.
Qed.

(** *** The sent flag over time *)

Lemma outbox_le_refl l : outbox_le l l.
Proof. intros i ob H. eauto. Qed.

Lemma outbox_le_trans l1 l2 l3 :
  outbox_le l1 l2 -> outbox_le l2 l3 -> outbox_le l1 l3.
Proof.
  intros H12 H23 i ob H. destruct (H12 i ob H) as (ob2 & H2 & Hid2 & Hs2).
  destruct (H23 i ob2 H2) as (ob3 & H3 & Hid3 & Hs3).
  exists ob3. split; [done|]. split; [congruence | auto].
Qed.

Lemma outbox_le_app l k : outbox_le l (l ++ k).
Proof.
  intros i ob H. exists ob. split; [|done].
  rewrite lookup_app_l; [done|]. now apply lookup_lt_Some in H.
Qed.

Lemma outbox_le_mark i st :
  outbox_le (outbound_messages st) (outbound_messages (mark_sent i st)).
Proof.
  intros j ob H. unfold mark_sent. cbn [outbound_messages].
  destruct (decide (i = j)) as [->|Hne].
  - rewrite list_lookup_alter_eq, H. simpl. eauto.
  - rewrite list_lookup_alter_ne by done. eauto.
Qed.

Lemma outbox_le_dispatch st mid rto resp :
  outbox_le (outbound_messages st)
    (outbound_messages (fst (dispatch st mid rto resp))).
Proof.
  unfold dispatch. destruct (negb (in_outbox _ st)); cbn [outbound_messages];
    destruct (list_find _ _) as [[i ob]|]; cbn [fst];
    try destruct (negb (sent ob)); cbn [fst outbound_messages];
    auto using outbox_le_refl, outbox_le_app.
Qed.

Lemma outbox_le_resume f o st :
  outbox_le (outbound_messages st) (outbound_messages (fst (resume f o st))).
Proof.
  destruct o as [res|]; [|apply outbox_le_refl]. destruct f; simpl.
  - apply outbox_le_refl.
  - apply outbox_le_dispatch.
  - apply outbox_le_mark.
Qed.

Lemma outbox_le_step c a :
  outbox_le (outbound_messages (wf_state c))
    (outbound_messages (wf_state (step c a))).
Proof.
  destruct a as [msg now | i o]; cbn [step].
  - unfold inbound_message, process. destruct (seen _ _); [apply outbox_le_refl|].
    destruct (str_in _ _); apply outbox_le_refl.
  - destruct (pending c !! i) as [[a f]|]; [|apply outbox_le_refl].
    pose proof (outbox_le_resume f o (wf_state c)) as H.
    destruct (resume f o (wf_state c)) as [st s]. now rewrite settle_state.
Qed.

Lemma outbox_le_exec tid acts more :
  outbox_le (outbound_messages (wf_state (exec tid acts)))
    (outbound_messages (wf_state (exec tid (acts ++ more)))).
Proof.
  induction more as [|a more IH] using rev_ind.
  - rewrite app_nil_r. apply outbox_le_refl.
  - rewrite app_assoc, exec_snoc.
    eapply outbox_le_trans; [exact IH | apply outbox_le_step].
Qed.

Lemma deliveries_pos mid acts :
  (1 <= deliveries mid acts)%nat -> existsb (is_delivery mid) acts = true.
Proof.
  unfold deliveries. induction acts as [|a acts IH]; simpl; [lia|].
  rewrite filter_cons. destruct (is_delivery mid a); [done|].
  rewrite decide_False by done. exact IH.
Qed.

(** The only activity the dispatch sequence schedules is the transmission
    under the derived reply id. *)
Lemma dispatch_frame st mid rto resp a f :
  snd (dispatch st mid rto resp) = Awaiting a f ->
  a = send_a2a_message rto (task_id st) (reply_id_of mid) resp /\
  exists i ob, f = at_send_a2a_message mid rto resp (reply_id_of mid) i /\
    list_find (fun m => out_message_id m = reply_id_of mid)
      (outbound_messages (fst (dispatch st mid rto resp))) = Some (i, ob) /\
    sent ob = false.
Proof.
  unfold dispatch.
  set (st1 := if negb (in_outbox _ st) then _ else st).
  assert (Htid : task_id st1 = task_id st).
  { subst st1. now destruct (negb _). }
  destruct (list_find _ (outbound_messages st1)) as [[i ob]|] eqn:Hf;
    cbn [snd fst]; [|done].
  destruct (sent ob) eqn:Hs; cbn [negb snd fst]; [done|].
  intros [= <- <-]. rewrite Htid. split; [done|]. eauto.
Qed.

Lemma dispatch_run_out_ids st mid rto resp o :
  out_message_id <$> outbound_messages (fst (dispatch_run st mid rto resp o)) =
  if in_outbox (reply_id_of mid) st
  then out_message_id <$> outbound_messages st
  else ((out_message_id <$> outbound_messages st) ++ [reply_id_of mid])%list.
Proof.
  rewrite <- (dispatch_out_ids st mid rto resp). unfold dispatch_run.
  pose proof (dispatch_frame st mid rto resp) as Hs.
  destruct (dispatch st mid rto resp) as [st1 s]. cbn [fst snd] in *.
  destruct s as [| |a f]; try done.
  destruct (Hs a f eq_refl) as (_ & i & ob & -> & _).
  destruct o as [res|]; [|done]. apply mark_sent_out_ids.
Qed.

(** A record already marked sent makes the whole sequence a no-op. *)
Lemma dispatch_run_sent st mid rto resp o :
  first_sent (reply_id_of mid) (outbound_messages st) = Some true ->
  dispatch_run st mid rto resp o = (st, []).
Proof.
  intros Hfs. unfold dispatch_run, dispatch.
  assert (Hin : in_outbox (reply_id_of mid) st = true).
  { apply in_outbox_elem. destruct (decide (reply_id_of mid ∈
      out_message_id <$> outbound_messages st)) as [|Hn]; [done|].
    apply first_sent_None in Hn. congruence. }
  rewrite Hin. cbn [negb]. rewrite first_sent_find in Hfs.
  destruct (list_find _ _) as [[i ob]|]; [|done].
  simpl in Hfs. injection Hfs as ->. done.
Qed.

(** *** Claims about the TaskWorkflow *)

(** C1 (idempotent ingestion). In every schedule that delivers a message
    with id [mid] at least once, whatever the contents of the deliveries
    and whatever else happens in between, the ledger holds exactly one
    inbound record with that id, and one more delivery of the id, with any
    content, reply address and time, is a no-op: ledger, suspended
    handlers and activity history are all unchanged. *)
Theorem idempotent_ingestion tid acts mid :
  (1 <= deliveries mid acts)%nat ->
  length (records_of mid (exec tid acts)) = 1%nat /\
  forall cont rto now,
    step (exec tid acts) (Signal (mkMsg mid cont rto) now) = exec tid acts.
Proof.
  intros Hn. apply deliveries_pos in Hn.
  assert (H1 : length (records_of mid (exec tid acts)) = 1%nat).
  { now rewrite records_count, Hn. }
  split; [done|]. intros cont rto now.
  destruct (step_signal_cases (exec tid acts) (mkMsg mid cont rto) now)
    as [[_ Heq] | [Hs _]]; [done|].
  cbn [msg_message_id] in Hs.
  assert (seen mid (wf_state (exec tid acts)) = true) as Hc;
    [apply records_of_seen; lia | congruence].
Qed.

Lemma idempotent_ingestion_witness :
  length (records_of "m3" (exec "t1" order66)) = 1%nat /\
  forall cont rto now,
    step (exec "t1" order66) (Signal (mkMsg "m3" cont rto) now) =
    exec "t1" order66.
Proof. apply idempotent_ingestion. vm_compute. lia. Defined.

(** C2 (at-most-once delivery). For every reply id: (1) in every schedule
    of the workflow the transmission count is at most one; (2) running the
    dispatch sequence any number of times, for any messages and with any
    outcomes of the transmission, from any state, transmits at most once;
    (3) the outbox never holds two records with one reply id; (4) a
    dispatch that finds the record present adds none; (5) a dispatch that
    finds the record marked sent does nothing at all; (6) along every
    continuation of a schedule each outbox record keeps its position and
    id, and a raised sent flag stays raised. *)
Theorem at_most_once_delivery tid acts more st calls rid :
  (transmissions rid (history (exec tid acts)) <= 1)%nat /\
  (transmissions rid (snd (dispatch_runs st calls)) <= 1)%nat /\
  NoDup (out_ids (exec tid acts)) /\
  (forall mid rto resp o,
     in_outbox (reply_id_of mid) st = true ->
     out_message_id <$> outbound_messages (fst (dispatch_run st mid rto resp o))
     = out_message_id <$> outbound_messages st) /\
  (forall mid rto resp o,
     first_sent (reply_id_of mid) (outbound_messages st) = Some true ->
     dispatch_run st mid rto resp o = (st, [])) /\
  outbox_le (outbound_messages (wf_state (exec tid acts)))
            (outbound_messages (wf_state (exec tid (acts ++ more)))).
Proof.
  destruct (invariants tid acts) as (_ & HT & _ & [HO _]).
  repeat split.
  - destruct (transmissions rid (history (exec tid acts))) eqn:E; [lia|].
    destruct (HT rid) as [H1 _]; lia.
  - pose proof (dispatch_runs_budget calls st rid).
    pose proof (budget_le_1 rid st). lia.
  - exact HO.
  - intros mid rto resp o Hin. now rewrite dispatch_run_out_ids, Hin.
  - intros mid rto resp o. apply dispatch_run_sent.
  - apply outbox_le_exec.
Qed.

Lemma at_most_once_delivery_witness :
  dispatch_run (wf_state (exec "t1" order66)) "m3" a_url "again" (Completed "ok")
  = (wf_state (exec "t1" order66), []).
Proof.
  apply (at_most_once_delivery "t1" order66 [] (wf_state (exec "t1" order66))
           [] "r-m3").
  vm_compute. reflexivity.
Defined.

(** C3 (persist before terminate). When a delivery passes the duplicate
    check and its content fires the crash trigger, the step that invokes
    the crash activity has appended the inbound record and scheduled
    nothing but the crash activity; no LLM call for the message occurs in
    the history up to that point; and in every continuation the LLM call
    of this handler is scheduled only directly after its crash activity
    has completed. In every schedule, an LLM call is scheduled only for a
    message already in the ledger. *)
Theorem persist_before_terminate tid acts msg now :
  let c := exec tid acts in
  let c' := step c (Signal msg now) in
  let mid := msg_message_id msg in
  let cont := msg_content msg in
  let rto := msg_reply_to msg in
  mid ∉ ids c ->
  str_in "EXECUTE_ORDER_66" cont = true ->
  inbound_messages (wf_state c') =
    (inbound_messages (wf_state c) ++ [mkInbound mid cont rto now])%list /\
  pending c' = (pending c ++ [(crash_worker, at_crash_worker mid cont rto)])%list /\
  history c' =
    (history c ++ [Scheduled (at_crash_worker mid cont rto) crash_worker])%list /\
  (forall e t cont', e ∈ history c' -> event_act e <> process_message t mid cont') /\
  (forall more i a,
     history (exec tid (acts ++ Signal msg now :: more)) !! i =
       Some (Scheduled (at_process_message mid cont rto) a) ->
     exists j res, i = S j /\
       history (exec tid (acts ++ Signal msg now :: more)) !! j =
         Some (Resolved (at_crash_worker mid cont rto) crash_worker
                 (Completed res))) /\
  (forall e t m cont', e ∈ history c ->
     event_act e = process_message t m cont' -> m ∈ ids c).
Proof.
  intros c c' mid cont rto Hnew Hfire.
  assert (Hc' : c' = mkConfig
            (mkState (task_id (wf_state c))
               (inbound_messages (wf_state c) ++ [mkInbound mid cont rto now])
               (outbound_messages (wf_state c)))
            (pending c ++ [(crash_worker, at_crash_worker mid cont rto)])
            (history c ++ [Scheduled (at_crash_worker mid cont rto) crash_worker])).
  { subst c'. rewrite (step_signal_new c msg now Hnew). cbv zeta.
    fold cont. now rewrite Hfire. }
  assert (Hproc : forall e t m cont', e ∈ history c ->
            event_act e = process_message t m cont' -> m ∈ ids c).
  { destruct (invariants tid acts) as (_ & _ & HH & _).
    intros e t m cont' He Ha. destruct (HH e He) as [Htag Hin].
    rewrite Ha in Htag. destruct (event_frame e); simpl in *.
    - done.
    - destruct Htag as [t' [= _ -> _]]. done.
    - now destruct Htag as [[t' ?] _]. }
  rewrite Hc'. cbn [wf_state inbound_messages pending history].
  repeat split; try done.
  - intros e t cont'. rewrite elem_of_app, list_elem_of_singleton.
    intros [He | ->] Ha; [|done]. apply Hnew. eapply Hproc; eauto.
  - intros more i a Hi. eapply InvC_exec; eauto.
Qed.

Lemma persist_before_terminate_witness :
  history (step (exec "t1" []) (Signal m3 1000)) =
  [Scheduled (at_crash_worker "m3" "[[TRIGGER:EXECUTE_ORDER_66]]" a_url)
     crash_worker].
Proof.
  refine (proj1 (proj2 (proj2 (persist_before_terminate "t1" [] m3 1000 _ _)))).
  - vm_compute. intros H. inversion H.
  - vm_compute. reflexivity.
Defined.

(** C4 (reply id). The reply id is ["r-"] followed by the message id and
    nothing else: the dispatch sequence, from any state and for any reply
    address and reply body, schedules the transmission under that id and
    leaves a record with that id in the outbox; in every schedule every
    transmission event carries the id derived from its handler's message
    id, and every outbox record carries the id derived from a recorded
    message. Message m3 yields r-m3. *)
Theorem reply_id_deterministic tid acts :
  reply_id_of "m3" = "r-m3" /\
  (forall mid, reply_id_of mid = "r-" ++ mid) /\
  (forall st mid rto resp a f,
     snd (dispatch st mid rto resp) = Awaiting a f ->
     a = send_a2a_message rto (task_id st) ("r-" ++ mid) resp) /\
  (forall st mid rto resp,
     "r-" ++ mid ∈ out_message_id <$>
        outbound_messages (fst (dispatch st mid rto resp))) /\
  (forall e url t rid resp, e ∈ history (exec tid acts) ->
     event_act e = send_a2a_message url t rid resp ->
     rid = "r-" ++ frame_mid (event_frame e)) /\
  (forall rid, rid ∈ out_ids (exec tid acts) ->
     exists m, m ∈ ids (exec tid acts) /\ rid = "r-" ++ m).
Proof.
  destruct (invariants tid acts) as (_ & _ & HH & [_ HO]).
  split; [done|]. split; [done|]. repeat split.
  - intros st mid rto resp a f H. now apply dispatch_frame in H as [-> _].
  - intros st mid rto resp. rewrite dispatch_out_ids.
    destruct (in_outbox _ st) eqn:E; [now apply in_outbox_elem|].
    rewrite elem_of_app, list_elem_of_singleton. now right.
  - intros e url t rid resp He Ha. destruct (HH e He) as [Htag _].
    rewrite Ha in Htag. destruct (event_frame e); simpl in *.
    + done.
    + now destruct Htag.
    + destruct Htag as [[t' [= _ _ -> _]] ->]. done.
  - intros rid Hr. destruct (HO rid Hr) as (m & -> & Hm). eauto.
Qed.

Lemma reply_id_deterministic_witness :
  exists m, m ∈ ids (exec "t1" order66) /\ "r-m3" = "r-" ++ m.
Proof.
  apply (reply_id_deterministic "t1" order66).
  vm_compute. left.
Defined.

End TaskWorkflowFacts.

(** * Proofs: InitiatorWorkflow *)

Module InitiatorFacts.
Import InitiatorWorkflow.

Lemma run_snoc a evs ev : run a (evs ++ [ev]) = step (run a evs) ev.
Proof. unfold run. now rewrite foldl_app. Qed.

Lemma drive_snoc a rounds r : drive a (rounds ++ [r]) = play (drive a rounds) r.
Proof. unfold drive. now rewrite foldl_app. Qed.

Lemma sends_app c st p cmds :
  sends (mkConfig (args c) st p (commands c ++ cmds)) =
  (sends c ++ omap (fun cmd => match cmd with
                               | ScheduleActivity p => Some p
                               | _ => None
                               end) cmds)%list.
Proof. unfold sends. simpl. apply omap_app. Qed.

Lemma seq_snoc i : (1 <= i)%nat -> seq 1 i = (seq 1 (i - 1) ++ [i])%list.
Proof.
  intros Hi. replace i with (S (i - 1)) at 1 by lia.
  rewrite seq_S. do 2 f_equal. lia.
Qed.

Lemma timers_app c st p cmds :
  timers (mkConfig (args c) st p (commands c ++ cmds)) =
  (timers c ++ omap (fun cmd => match cmd with
                                | StartTimer n => Some n
                                | _ => None
                                end) cmds)%list.
Proof. unfold timers. simpl. apply omap_app. Qed.

Lemma Inv_start a : Inv (start a).
Proof. split; simpl; [auto | done | apply sublist_nil_l | done]. Qed.

(** Entering the loop head with the next counter. *)
Lemma Inv_loop c st i :
  (1 <= i <= 3)%nat ->
  sends c = turn_params (args c) <$> seq 1 i ->
  (entry_key <$> sentMessages st) `sublist_of` (turn_key <$> seq 1 i) ->
  timers c = replicate (length (sentMessages st)) 30%nat ->
  Inv (goto c st (loop (args c) (S i))).
Proof.
  intros Hi Hs Hsub Ht. unfold goto, loop.
  destruct (S i <=? 3)%nat eqn:Hle; cbn [fst snd].
  - apply Nat.leb_le in Hle. split; cbn [at_point state started recorded args].
    + auto with lia.
    + rewrite sends_app, Hs. cbn [omap list_omap mbind option_bind].
      rewrite seq_S, fmap_app. done.
    + replace (S i - 1)%nat with i by lia. done.
    + rewrite timers_app, Ht. cbn [omap list_omap]. done.
  - apply Nat.leb_gt in Hle. assert (i = 3%nat) as -> by lia.
    split; cbn [at_point state started recorded args].
    + done.
    + rewrite sends_app, Hs. cbn [omap list_omap]. now rewrite app_nil_r.
    + done.
    + rewrite timers_app, Ht. done.
Qed.

Lemma Inv_step c ev : Inv c -> Inv (step c ev).
Proof.
  intros [Hp Hs Hsub Ht]. destruct ev as [e t]. unfold step.
  destruct e as [[|] | | reply]; destruct (at_point c) as [i mid cont|i| |] eqn:Hat;
    try (split; unfold timers in *; rewrite ?Hat; done).
  - (* the send returned *)
    destruct Hp as (Hi & -> & ->). unfold goto. cbn [fst snd].
    split; cbn [at_point state started recorded args sentMessages].
    + done.
    + rewrite sends_app, Hs. cbn [omap list_omap]. now rewrite app_nil_r.
    + rewrite fmap_app, (seq_snoc i), fmap_app by lia.
      apply sublist_app; [done|]. done.
    + rewrite timers_app, Ht, length_app, !app_nil_r. cbn [omap list_omap length].
      rewrite Nat.add_1_r, replicate_S_end. done.
  - (* the send threw *)
    destruct Hp as (Hi & -> & ->). apply Inv_loop; [done | done | |].
    + cbn [recorded] in Hsub. rewrite (seq_snoc i), fmap_app by lia.
      now apply sublist_inserts_r.
    + now rewrite Ht, app_nil_r.
  - (* the 30 s sleep elapsed *)
    apply Inv_loop; try done. now rewrite Ht, app_nil_r.
  - (* the grace sleep elapsed *)
    unfold goto. cbn [fst snd].
    split; cbn [at_point state started recorded args commands].
    + eauto.
    + rewrite sends_app, Hs. cbn [omap list_omap]. now rewrite app_nil_r.
    + done.
    + rewrite timers_app, Ht. cbn [omap list_omap]. now rewrite app_nil_r.
Qed.

Lemma Inv_run a evs : Inv (run a evs).
Proof.
  induction evs as [|ev evs IH] using rev_ind; [apply Inv_start|].
  rewrite run_snoc. now apply Inv_step.
Qed.

Lemma step_args c ev : args (step c ev) = args c.
Proof.
  destruct ev as [e t]. unfold step, goto.
  destruct e as [[|] | | reply]; destruct (at_point c); done.
Qed.

Lemma run_args a evs : args (run a evs) = a.
Proof.
  induction evs as [|ev evs IH] using rev_ind; [done|].
  now rewrite run_snoc, step_args.
Qed.

Lemma Inv_deliveries sigs : forall c, Inv c -> Inv (foldl deliver c sigs).
Proof.
  induction sigs as [|s sigs IH]; intros c Hc; [done|].
  simpl. apply IH. now apply Inv_step.
Qed.

Lemma Inv_play c r : Inv c -> Inv (play c r).
Proof. intros Hc. unfold play. now apply Inv_step, Inv_deliveries. Qed.

Lemma Inv_drive a rounds : Inv (drive a rounds).
Proof.
  induction rounds as [|r rounds IH] using rev_ind; [apply Inv_start|].
  rewrite drive_snoc. now apply Inv_play.
Qed.

Lemma deliveries_args sigs : forall c, args (foldl deliver c sigs) = args c.
Proof.
  induction sigs as [|s sigs IH]; intros c; [done|].
  simpl. rewrite IH. apply step_args.
Qed.

Lemma play_args c r : args (play c r) = args c.
Proof. unfold play. now rewrite step_args, deliveries_args. Qed.

Lemma drive_args a rounds : args (drive a rounds) = a.
Proof.
  induction rounds as [|r rounds IH] using rev_ind; [done|].
  now rewrite drive_snoc, play_args.
Qed.

(** *** Both sequences only grow *)

Lemma step_sent_prefix c ev :
  sentMessages (state c) `prefix_of` sentMessages (state (step c ev)).
Proof.
  destruct ev as [e t]. unfold step, goto.
  destruct e as [[|] | | reply]; destruct (at_point c); cbn [state sentMessages];
    try done; try apply prefix_app_r; done.
Qed.

Lemma step_received_prefix c ev :
  receivedReplies (state c) `prefix_of` receivedReplies (state (step c ev)).
Proof.
  destruct ev as [e t]. unfold step, goto.
  destruct e as [[|] | | reply]; destruct (at_point c);
    cbn [state receivedReplies]; try done; try apply prefix_app_r; done.
Qed.

(** *** Replies are recorded as delivered *)

Lemma step_reply_open c reply t :
  at_point c <> Completed ->
  step c (replyReceived reply, t) =
  mkConfig (args c)
    (mkState (taskId (state c)) (sentMessages (state c))
       (receivedReplies (state c) ++
          [mkEntry (reply_messageId reply) (reply_content reply) t]))
    (at_point c) (commands c).
Proof. intros H. unfold step. now destruct (at_point c). Qed.

Lemma received_from_signals a evs e :
  e ∈ receivedReplies (state (run a evs)) ->
  exists reply, (replyReceived reply, timestamp e) ∈ evs /\
    messageId e = reply_messageId reply /\ content e = reply_content reply.
Proof.
  induction evs as [|ev evs IH] using rev_ind; [intros H; inversion H|].
  rewrite run_snoc. set (c := run a evs) in *.
  assert (Hold : e ∈ receivedReplies (state c) ->
    exists reply, (replyReceived reply, timestamp e) ∈ (evs ++ [ev])%list /\
      messageId e = reply_messageId reply /\ content e = reply_content reply).
  { intros H. destruct (IH H) as (reply & Hin & ?). exists reply.
    split; [|done]. apply elem_of_app. now left. }
  destruct ev as [ev t]. unfold step, goto.
  destruct ev as [[|] | | reply]; destruct (at_point c);
    cbn [state receivedReplies]; try exact Hold.
  all: rewrite elem_of_app, list_elem_of_singleton; intros [H| ->]; [auto|];
    exists reply; cbn [timestamp messageId content];
    (split; [|done]); apply elem_of_app; right; now apply list_elem_of_singleton.
Qed.

(** *** Timestamps are readings of the workflow clock *)



(** *** Progress *)

Lemma loop_remaining a i : (remaining (fst (loop a (S i))) < 2 * (3 - i) + 2)%nat.
Proof.
  unfold loop. destruct (S i <=? 3)%nat eqn:E; cbn [fst remaining]; [|lia].
  apply Nat.leb_le in E. lia.
Qed.

(** Resolving what the workflow awaits brings it strictly closer to
    completion, whatever the outcome. *)
Lemma answer_progress c b t :
  at_point c <> Completed ->
  (remaining (at_point (step c (answer (at_point c) b, t)))
   < remaining (at_point c))%nat.
Proof.
  intros Hne. unfold step, goto.
  destruct (at_point c) as [i mid cont|i| |] eqn:Hat; cbn [answer].
  - destruct b; cbn [at_point fst remaining].
    + lia.
    + pose proof (loop_remaining (args c) i). lia.
  - cbn [at_point fst]. pose proof (loop_remaining (args c) i).
    cbn [remaining]. lia.
  - cbn [at_point fst remaining]. lia.
  - done.
Qed.

Lemma step_completed c ev : at_point c = Completed -> step c ev = c.
Proof.
  intros H. destruct ev as [e t]. unfold step. rewrite H.
  now destruct e as [[|] | | reply].
Qed.

Lemma deliver_point c s : at_point (deliver c s) = at_point c.
Proof.
  unfold deliver, step. cbn [fst snd].
  destruct (at_point c) eqn:E; cbn [at_point]; done.
Qed.

Lemma deliveries_point sigs : forall c,
  at_point (foldl deliver c sigs) = at_point c.
Proof.
  induction sigs as [|s sigs IH]; intros c; [done|].
  simpl. now rewrite IH, deliver_point.
Qed.

Lemma play_progress c r :
  at_point c <> Completed ->
  (remaining (at_point (play c r)) < remaining (at_point c))%nat.
Proof.
  intros Hne. unfold play.
  set (c1 := foldl deliver c (signals r)).
  assert (Hc1 : at_point c1 = at_point c) by apply deliveries_point.
  rewrite <- Hc1. apply answer_progress. now rewrite Hc1.
Qed.

Lemma play_completed c r :
  at_point c = Completed -> at_point (play c r) = Completed.
Proof.
  intros H. unfold play. rewrite step_completed; rewrite deliveries_point; done.
Qed.

Lemma plays_complete rounds : forall c,
  (remaining (at_point c) <= length rounds)%nat ->
  at_point (foldl play c rounds) = Completed.
Proof.
  induction rounds as [|r rounds IH]; intros c Hn; simpl in *.
  - destruct (at_point c); simpl in Hn; done || lia.
  - apply IH.
    assert (at_point c = Completed \/ at_point c <> Completed) as [Hc|Hc]
      by (destruct (at_point c); auto).
    + rewrite (play_completed c r Hc). simpl. lia.
    + pose proof (play_progress c r Hc). lia.
Qed.

Lemma drive_completes a rounds :
  (7 <= length rounds)%nat -> at_point (drive a rounds) = Completed.
Proof.
  intros Hn. apply plays_complete.
  change (at_point (start a)) with (fst (loop a 1)).
  pose proof (loop_remaining a 0). simpl in *. lia.
Qed.

Lemma drive_sends a rounds :
  (7 <= length rounds)%nat ->
  sends (drive a rounds) = [turn_params a 1; turn_params a 2; turn_params a 3].
Proof.
  intros Hn. destruct (Inv_drive a rounds) as [_ Hs _ _].
  now rewrite Hs, (drive_completes a rounds Hn), drive_args.
Qed.

(** A send that exhausted its retries leaves the state alone and moves
    the loop to the next counter. *)
Lemma step_failed_send c i mid cont t :
  at_point c = AwaitSend i mid cont ->
  step c (ActivityResolved false, t) = goto c (state c) (loop (args c) (S i)).
Proof. intros H. unfold step. now rewrite H. Qed.



Lemma sent_length a evs :
  (length (sentMessages (state (run a evs))) <= 3)%nat.
Proof.
  destruct (Inv_run a evs) as [Hp _ Hsub].
  apply sublist_length in Hsub. rewrite !length_fmap, length_seq in Hsub.
  assert (recorded (at_point (run a evs)) <= 3)%nat.
  { destruct (at_point (run a evs)); simpl in *; lia. }
  lia.
Qed.

Lemma sends_entry a evs p :
  p ∈ sends (run a evs) ->
  exists i, (1 <= i <= 3)%nat /\ p = turn_params a i.
Proof.
  intros Hin. destruct (Inv_run a evs) as [Hp Hs _].
  rewrite Hs, run_args in Hin.
  apply list_elem_of_fmap in Hin as (i & -> & Hi).
  apply elem_of_seq in Hi. exists i. split; [|done].
  assert (started (at_point (run a evs)) <= 3)%nat.
  { destruct (at_point (run a evs)); simpl in *; lia. }
  lia.
Qed.

(** *** Claims about the InitiatorWorkflow *)

(** C5, as amended (driver monotonicity). In every reachable state of the
    workflow, [sentMessages] only grows by appending, and its length is at
    most 3, the fixed number of turns of the loop; the start request's
    [turns] value does not reach the workflow. Every entry of
    [receivedReplies] is a [replyReceived] signal as it was delivered,
    stamped with the time of its activation; the handler records every
    signal delivered to the open workflow, whatever its id. *)
Theorem driver_monotonicity_amended a evs ev :
  let c := run a evs in
  sentMessages (state c) `prefix_of` sentMessages (state (step c ev)) /\
  (length (sentMessages (state c)) <= length (sentMessages (state (step c ev))))%nat /\
  (length (sentMessages (state c)) <= 3)%nat /\
  receivedReplies (state c) `prefix_of` receivedReplies (state (step c ev)) /\
  (forall e, e ∈ receivedReplies (state c) ->
     exists reply, (replyReceived reply, timestamp e) ∈ evs /\
       messageId e = reply_messageId reply /\ content e = reply_content reply) /\
  (forall reply t, at_point c <> Completed ->
     receivedReplies (state (step c (replyReceived reply, t))) =
     (receivedReplies (state c) ++
        [mkEntry (reply_messageId reply) (reply_content reply) t])%list).
Proof.
  intros c. repeat split.
  - apply step_sent_prefix.
  - apply prefix_length, step_sent_prefix.
  - apply sent_length.
  - apply step_received_prefix.
  - intros e. apply received_from_signals.
  - intros reply t Hopen. now rewrite step_reply_open.
Qed.

Lemma driver_monotonicity_amended_witness :
  receivedReplies (state (step (run demo_args early_reply)
                             (replyReceived (mkReply "x-99" "?"), 60%Z))) =
  [mkEntry "r-m1" "Yes, my lord." 50; mkEntry "x-99" "?" 60].
Proof.
  refine (proj2 (proj2 (proj2 (proj2 (proj2
    (driver_monotonicity_amended demo_args early_reply
       (TimerFired, 0%Z)))))) (mkReply "x-99" "?") 60%Z _).
  vm_compute. discriminate.
Defined.



(** C9 (completion despite failed turns). Whatever the outcome of each
    send, once the substrate has resolved what the workflow awaits seven
    times the workflow is completed: its last command returns its final
    state, all three turns have been attempted in order, and the timers it
    started are one 30 s wait per turn that was sent and then the single
    10 s grace wait. A send that exhausted its retries changes nothing in
    the state and moves the loop to the head of the next turn. *)
Theorem completes_despite_failures a rounds :
  (7 <= length rounds)%nat ->
  let c := drive a rounds in
  at_point c = Completed /\
  (exists cmds, commands c = (cmds ++ [CompleteWorkflow (state c)])%list) /\
  sends c = [turn_params a 1; turn_params a 2; turn_params a 3] /\
  timers c = (replicate (length (sentMessages (state c))) 30%nat ++ [10%nat])%list /\
  (length (sentMessages (state c)) <= 3)%nat /\
  (forall c0 i mid cont t,
     at_point c0 = AwaitSend i mid cont ->
     let c1 := step c0 (ActivityResolved false, t) in
     state c1 = state c0 /\ at_point c1 = fst (loop (args c0) (S i))).
Proof.
  intros Hn c. pose proof (drive_completes a rounds Hn) as Hc.
  destruct (Inv_drive a rounds) as [Hp Hs Hsub Ht].
  rewrite Hc in Hp, Hs, Hsub, Ht. cbn [started recorded] in *.
  repeat split.
  - exact Hc.
  - exact Hp.
  - now apply drive_sends.
  - exact Ht.
  - apply sublist_length in Hsub. rewrite !length_fmap, length_seq in Hsub.
    subst c. lia.
  - rewrite (step_failed_send c0 i mid cont t H). done.
  - rewrite (step_failed_send c0 i mid cont t H). done.
Qed.

Lemma completes_despite_failures_witness :
  at_point (drive demo_args (failing_rounds ++ happy_rounds)) = Completed.
Proof.
  apply (completes_despite_failures demo_args (failing_rounds ++ happy_rounds)).
  vm_compute. lia.
Defined.

(** The three sends all fail: four resolutions complete the workflow,
    with nothing sent and only the grace wait. *)
Lemma all_sends_fail :
  let c := drive demo_args failing_rounds in
  at_point c = Completed /\ sentMessages (state c) = [] /\
  timers c = [10%nat] /\ p_messageId <$> sends c = ["m1"; "m2"; "m3"].
Proof. vm_compute. done. Qed.

End InitiatorFacts.

(** * Proofs: demo driver *)

Module DemoDriverFacts.
Import InitiatorWorkflow DemoDriver InitiatorFacts.

Lemma seq_prefix k : (k <= 3)%nat -> seq 1 k `prefix_of` seq 1 3.
Proof.
  intros Hk.
  assert (k = 0 \/ k = 1 \/ k = 2 \/ k = 3)%nat as [->|[->|[->| ->]]] by lia; simpl.
  - apply prefix_nil.
  - now exists [2; 3]%nat.
  - now exists [3]%nat.
  - done.
Qed.

(** C5, the claim as stated, fails. A request that configures one turn
    starts a workflow that records three sent turns; and a reply delivered
    while the first send is still awaited is recorded although no turn has
    been recorded as sent. *)
Lemma driver_monotonicity_counterexample :
  exists ws a,
    snd (start_task one_turn no_env (fun _ => None)) = [ws] /\
    invoke (wargs ws) = Some a /\
    ~ within_turns one_turn (drive a happy_rounds) /\
    ~ replies_correlated (run a early_reply).
Proof.
  eexists _, _. split; [reflexivity|]. split; [reflexivity|]. split.
  - vm_compute. intros H. apply H. reflexivity.
  - intros H.
    destruct (H (mkEntry "r-m1" "Yes, my lord." 50)) as (s & Hs & _).
    + vm_compute. left.
    + vm_compute in Hs. inversion Hs.
Qed.



End DemoDriverFacts.

(** * Proofs: A2A endpoint *)

Module ServerFacts.
Import Server.



End ServerFacts.

(** * Proofs: the send activity under its retry policy *)

Module RetryFacts.
Import Retry.

(** The activity throws nothing but [Error], [TypeError] and
    [SyntaxError]. *)
Lemma thrown_names r name msg :
  sendA2AMessage r = Throws name msg ->
  name = "Error" \/ name = "TypeError" \/ name = "SyntaxError".
Proof.
  destruct r as [|status text js]; simpl.
  - intros [= <- _]. auto.
  - destruct (_ && _); [destruct js; [done|]|]; intros [= <- _]; auto.
Qed.

(** The three attempts the policy allows, unrolled. *)
Lemma execute_send_policy fetches :
  execute send_policy fetches =
  match sendA2AMessage (fetches 1%nat) with
  | Returns => mkExecution 1 [] Returns
  | Throws _ _ =>
      match sendA2AMessage (fetches 2%nat) with
      | Returns => mkExecution 2 [1000%Z] Returns
      | Throws _ _ =>
          mkExecution 3 [1000%Z; 2000%Z] (sendA2AMessage (fetches 3%nat))
      end
  end.
Proof.
  unfold execute, send_policy.
  cbn [maximumAttempts Nat.sub execute_from nonRetryableErrorTypes].
  destruct (sendA2AMessage (fetches 1%nat)) as [|n1 m1]; [done|].
  destruct (sendA2AMessage (fetches 2%nat)) as [|n2 m2]; [done|].
  destruct (sendA2AMessage (fetches 3%nat)) as [|n3 m3]; done.
Qed.

Lemma always_failing r :
  sendA2AMessage r <> Returns ->
  attempts (execute send_policy (always r)) = 3%nat.
Proof.
  intros H. rewrite execute_send_policy. unfold always.
  destruct (sendA2AMessage r); done.
Qed.

(** C8, the claim as stated, fails. Agent B answers every attempt with
    HTTP 401: the send is attempted three times, not once. *)
Lemma permanent_failure_counterexample :
  attempts (execute send_policy (always unauthorized)) = 3%nat /\
  waits (execute send_policy (always unauthorized)) = [1000%Z; 2000%Z] /\
  final (execute send_policy (always unauthorized)) =
    Throws "Error" "HTTP 401: Unauthorized" /\
  attempts (execute send_policy (always unauthorized)) <> 1%nat.
Proof. vm_compute. repeat split; congruence. Qed.

(** C8, as amended (one retry policy for every failure). Whatever Agent B
    answers, the send is attempted at least once and at most three times,
    with waits of 1 s and then 2 s between attempts; an attempt is made
    exactly when all earlier ones threw, whatever they threw; the outcome
    is that of the last attempt; a send that fails has used all three
    attempts. Permanent failures are no exception: a constant HTTP 401 or
    400, like a constant 503 or a network error, takes three attempts.
    The error then reaches the workflow, which skips that turn only. *)
Theorem uniform_retry fetches :
  let e := execute send_policy fetches in
  (1 <= attempts e <= 3)%nat /\
  waits e = take (attempts e - 1) [1000%Z; 2000%Z] /\
  final e = sendA2AMessage (fetches (attempts e)) /\
  (forall k, (1 <= k < attempts e)%nat -> sendA2AMessage (fetches k) <> Returns) /\
  (final e <> Returns -> attempts e = 3%nat) /\
  (forall status text js,
     sendA2AMessage (HttpResponse status text js) <> Returns ->
     attempts (execute send_policy (always (HttpResponse status text js))) = 3%nat) /\
  attempts (execute send_policy (always NetworkError)) = 3%nat /\
  (forall c i mid cont t,
     InitiatorWorkflow.at_point c = InitiatorWorkflow.AwaitSend i mid cont ->
     InitiatorWorkflow.step c (InitiatorWorkflow.ActivityResolved false, t) =
     InitiatorWorkflow.goto c (InitiatorWorkflow.state c)
       (InitiatorWorkflow.loop (InitiatorWorkflow.args c) (S i))).
Proof.
  cbv zeta. rewrite execute_send_policy.
  assert (Hlast : forall c i mid cont t,
     InitiatorWorkflow.at_point c = InitiatorWorkflow.AwaitSend i mid cont ->
     InitiatorWorkflow.step c (InitiatorWorkflow.ActivityResolved false, t) =
     InitiatorWorkflow.goto c (InitiatorWorkflow.state c)
       (InitiatorWorkflow.loop (InitiatorWorkflow.args c) (S i)))
    by apply InitiatorFacts.step_failed_send.
  assert (Hconst : forall status text js,
     sendA2AMessage (HttpResponse status text js) <> Returns ->
     attempts (execute send_policy (always (HttpResponse status text js))) = 3%nat)
    by (intros; now apply always_failing).
  assert (Hnet : attempts (execute send_policy (always NetworkError)) = 3%nat)
    by now apply always_failing.
  destruct (sendA2AMessage (fetches 1%nat)) as [|n1 m1] eqn:E1;
    [|destruct (sendA2AMessage (fetches 2%nat)) as [|n2 m2] eqn:E2];
    cbn [attempts waits final].
  all: repeat split; try done; try lia.
  all: intros k Hk; assert (k = 1 \/ k = 2)%nat as [->| ->] by lia;
    congruence || lia.
Qed.

Lemma uniform_retry_witness :
  attempts (execute send_policy (always bad_request)) = 3%nat.
Proof.
  refine (proj1 (proj2 (proj2 (proj2 (proj2 (proj2
    (uniform_retry (always bad_request))))))) 400%nat "Bad Request" true _).
  vm_compute. discriminate.
Defined.

(** Declaring the documented non-retryable types would change nothing:
    the activity never throws an error of those types. *)
Lemma documented_policy_same fetches :
  execute documented_policy fetches = execute send_policy fetches.
Proof.
  unfold execute, documented_policy, send_policy.
  cbn [maximumAttempts Nat.sub execute_from nonRetryableErrorTypes].
  assert (Hn : forall r n m, sendA2AMessage r = Throws n m ->
            bool_decide (n ∈ ["AuthenticationError"; "InvalidRequestError"]) = false).
  { intros r n m H. apply thrown_names in H as [-> | [-> | ->]]; done. }
  destruct (sendA2AMessage (fetches 1%nat)) as [|n1 m1] eqn:E1; [done|].
  rewrite (Hn _ _ _ E1). cbn [bool_decide].
  destruct (sendA2AMessage (fetches 2%nat)) as [|n2 m2] eqn:E2; [done|].
  rewrite (Hn _ _ _ E2).
  destruct (sendA2AMessage (fetches 3%nat)) as [|n3 m3] eqn:E3; [done|].
  now rewrite (Hn _ _ _ E3).
Qed.

End RetryFacts.

(** * Further properties: TaskWorkflow ledger *)

Module LedgerFacts.
Import TaskWorkflow TaskWorkflowFacts.

Lemma first_deliveries_snoc acts a :
  first_deliveries (acts ++ [a]) =
  match record_of a with
  | Some r => keep_first (first_deliveries acts) r
  | None => first_deliveries acts
  end.
Proof.
  unfold first_deliveries. rewrite omap_app, foldl_app. simpl.
  destruct (record_of a); done.
Qed.

Lemma ledger_first_deliveries_eq tid acts :
  inbound_messages (wf_state (exec tid acts)) = first_deliveries acts.
Proof.
  induction acts as [|a acts IH] using rev_ind; [done|].
  rewrite exec_snoc, first_deliveries_snoc. set (c := exec tid acts) in *.
  destruct a as [msg now | i o]; cbn [record_of].
  - unfold keep_first. rewrite <- IH. cbn [message_id].
    destruct (step_signal_cases c msg now) as [[Hs ->] | [Hs ->]].
    + apply seen_elem in Hs. now rewrite decide_True.
    + rewrite decide_False; [done|]. rewrite <- seen_elem. congruence.
  - now rewrite step_resolve_inbound.
Qed.

(** X1 (the ledger is the first delivery of every id). Whatever the
    outcomes and the interleaving of the activities, the inbound ledger is
    obtained from the deliveries alone: in delivery order, the record
    (content, reply address, time) of the first delivery of each message
    id; what later deliveries of an id carry is discarded. *)
Theorem ledger_first_deliveries tid acts :
  inbound_messages (wf_state (exec tid acts)) = first_deliveries acts.
Proof. apply ledger_first_deliveries_eq. Qed.

(** X2 (append-only ledger). Every continuation of a schedule leaves the
    inbound records already present in place and unchanged: the ledger of
    the shorter schedule is a prefix of the ledger of the longer one. *)
Theorem ledger_append_only tid acts more :
  inbound_messages (wf_state (exec tid acts))
    `prefix_of` inbound_messages (wf_state (exec tid (acts ++ more))).
Proof.
  induction more as [|a more IH] using rev_ind.
  - now rewrite app_nil_r.
  - rewrite app_assoc, exec_snoc. etrans; [exact IH|].
    set (c := exec tid (acts ++ more)).
    destruct a as [msg now | i o].
    + destruct (step_signal_cases c msg now) as [[_ ->] | [_ ->]];
        [done | now apply prefix_app_r].
    + now rewrite step_resolve_inbound.
Qed.

Lemma ids_NoDup tid acts : NoDup (ids (exec tid acts)).
Proof.
  apply exec_ind; [constructor|]. intros c a Hc.
  destruct a as [msg now | i o].
  - destruct (step_signal c msg now) as [[_ ->] | (Hn & -> & _)]; [done|].
    apply NoDup_app. split; [done|]. split; [|apply NoDup_singleton].
    intros x Hx. rewrite list_elem_of_singleton. now intros ->.
  - unfold ids. now rewrite step_resolve_inbound.
Qed.

Lemma ids_delivered tid acts m :
  m ∈ ids (exec tid acts) <-> m ∈ delivered_ids acts.
Proof.
  unfold delivered_ids.
  induction acts as [|a acts IH] using rev_ind; [done|].
  rewrite exec_snoc, omap_app, fmap_app, elem_of_app, <- IH.
  set (c := exec tid acts) in *.
  destruct a as [msg now | i o]; cbn [omap list_omap record_of].
  - destruct (step_signal c msg now) as [[Hin ->] | (Hn & -> & _)];
      simpl; rewrite list_elem_of_singleton.
    + split; [auto | intros [?| ->]; done].
    + now rewrite elem_of_app, list_elem_of_singleton.
  - unfold ids. rewrite step_resolve_inbound. simpl.
    rewrite elem_of_nil. tauto.
Qed.

(** X3 (when [run] returns). The ledger holds one record per distinct
    delivered message id, so the condition [run] waits for holds exactly
    when three distinct ids have been delivered; repeated deliveries of an
    id never complete the workflow. *)
Theorem run_returns_after_three_distinct tid acts :
  length (inbound_messages (wf_state (exec tid acts))) =
    length (remove_dups (delivered_ids acts)) /\
  (wait_condition (wf_state (exec tid acts)) = true <->
   (3 <= length (remove_dups (delivered_ids acts)))%nat).
Proof.
  assert (H : length (inbound_messages (wf_state (exec tid acts))) =
              length (remove_dups (delivered_ids acts))).
  { rewrite <- (length_fmap message_id). fold (ids (exec tid acts)).
    apply Permutation_length, NoDup_Permutation.
    - apply ids_NoDup.
    - apply NoDup_remove_dups.
    - intros m. now rewrite elem_of_remove_dups, ids_delivered. }
  split; [done|]. unfold wait_condition. rewrite H. apply Nat.leb_le.
Qed.

End LedgerFacts.

(** * Further properties: TaskWorkflow outbox and activities *)

Module OutboxFacts.
Import TaskWorkflow TaskWorkflowFacts LedgerFacts.

Lemma dispatch_unfold st m rto resp :
  dispatch st m rto resp =
  let rid := reply_id_of m in
  let st1 := upsert rid rto st in
  match list_find (fun x => out_message_id x = rid) (outbound_messages st1) with
  | None => (st1, Raised)
  | Some (i, ob) =>
      if negb (sent ob)
      then (st1, Awaiting (send_a2a_message rto (task_id st1) rid resp)
                          (at_send_a2a_message m rto resp rid i))
      else (st1, Returned)
  end.
Proof. reflexivity. Qed.

Lemma upsert_task_id rid rto st : task_id (upsert rid rto st) = task_id st.
Proof. unfold upsert. now destruct (negb _). Qed.

Lemma upsert_inbound rid rto st :
  inbound_messages (upsert rid rto st) = inbound_messages st.
Proof. unfold upsert. now destruct (negb _). Qed.

Lemma upsert_outbound rid rto st :
  ((rid ∈ out_message_id <$> outbound_messages st) /\
   outbound_messages (upsert rid rto st) = outbound_messages st) \/
  ((rid ∉ out_message_id <$> outbound_messages st) /\
   outbound_messages (upsert rid rto st) =
     (outbound_messages st ++ [mkOutbound rid rto false])%list).
Proof.
  unfold upsert. destruct (in_outbox rid st) eqn:E; simpl.
  - left. split; [now apply in_outbox_elem | done].
  - right. split; [|done]. rewrite <- in_outbox_elem. congruence.
Qed.

(** Every move of the workflow is one of the listed transitions. *)
Lemma step_transition c a : transition c (step c a).
Proof.
  destruct a as [msg now | i o].
  - destruct (step_signal c msg now) as [[_ ->] | (Hn & _)]; [constructor|].
    rewrite (step_signal_new c msg now Hn). cbv zeta.
    destruct (str_in _ (msg_content msg)) eqn:E.
    + eapply (t_admit c msg now); [done | now rewrite E].
    + eapply (t_admit c msg now); [done | now rewrite E].
  - cbn [step]. destruct (pending c !! i) as [[a f]|] eqn:Hl; [|constructor].
    destruct o as [res|]; cbn [resume]; [|exact (t_fail c i a f Hl)].
    destruct f as [m cont rto | m cont rto | m rto resp rid idx].
    + unfold process. cbn [settle]. rewrite <- app_assoc. cbn [app].
      exact (t_crashed c i a m cont rto res Hl).
    + rewrite dispatch_unfold. cbv zeta.
      destruct (list_find _ _) as [[idx ob]|] eqn:Hf.
      * apply list_find_Some in Hf as (Hidx & Hid & _).
        destruct (sent ob) eqn:Hs; cbn [negb settle].
        -- exact (t_dispatch_quiet c i a m cont rto res Hl).
        -- rewrite upsert_task_id, <- app_assoc. cbn [app].
           exact (t_dispatch_send c i a m cont rto res idx ob Hl Hidx Hid Hs).
      * cbn [settle]. exact (t_dispatch_quiet c i a m cont rto res Hl).
    + cbn [settle]. exact (t_sent c i a m rto resp rid idx res Hl).
Qed.

Lemma llm_calls_snoc m h e :
  llm_calls m (h ++ [e]) =
  (llm_calls m h + if is_llm_call m e then 1 else 0)%nat.
Proof.
  unfold llm_calls. rewrite filter_app, length_app, filter_cons, filter_nil.
  destruct (is_llm_call m e); [now rewrite decide_True | now rewrite decide_False].
Qed.

Lemma send_calls_snoc rid h e :
  send_calls rid (h ++ [e]) =
  (send_calls rid h + if is_send_call rid e then 1 else 0)%nat.
Proof.
  unfold send_calls. rewrite filter_app, length_app, filter_cons, filter_nil.
  destruct (is_send_call rid e); [now rewrite decide_True | now rewrite decide_False].
Qed.

Lemma snoc2 {A} (h : list A) x y : (h ++ [x; y] = (h ++ [x]) ++ [y])%list.
Proof. now rewrite <- app_assoc. Qed.

Lemma eqb_reply m m' :
  String.eqb (reply_id_of m) (reply_id_of m') = String.eqb m m'.
Proof.
  destruct (String.eqb_spec m m') as [->|Hne]; [apply String.eqb_refl|].
  apply String.eqb_neq. intros H. now apply reply_id_inj in H.
Qed.

(** The other suspended handlers belong to other messages. *)
Lemma delete_other c i a f a0 f0 :
  Inv1 c -> pending c !! i = Some (a, f) ->
  (a0, f0) ∈ delete i (pending c) ->
  (a0, f0) ∈ pending c /\ frame_mid f0 <> frame_mid f.
Proof.
  intros [Hnd _ _] Hl Hin. split; [eapply delete_elem_of, Hin|].
  intros Heq.
  apply (delete_lookup_NoDup _ i (frame_mid f) Hnd (pend_ids_lookup c i a f Hl)).
  unfold pend_ids. rewrite <- list_fmap_delete, <- Heq.
  now apply (list_elem_of_fmap_2 (fun p => frame_mid (snd p)) _ (a0, f0)).
Qed.

Lemma pending_recorded c a f :
  Inv1 c -> (a, f) ∈ pending c -> frame_mid f ∈ ids c.
Proof.
  intros [_ Hp _] Hin. apply Hp. unfold pend_ids.
  now apply (list_elem_of_fmap_2 (fun p => frame_mid (snd p)) _ (a, f)).
Qed.

Lemma lookup_pending c i a f : pending c !! i = Some (a, f) -> (a, f) ∈ pending c.
Proof. intros H. apply list_elem_of_lookup. eauto. Qed.

Lemma not_in_snoc (l : list InboundMessage) r m :
  m ∉ message_id <$> (l ++ [r])%list ->
  (m ∉ message_id <$> l) /\ message_id r <> m.
Proof.
  rewrite fmap_app, elem_of_app. simpl. rewrite list_elem_of_singleton.
  intros H. split; [tauto|]. intros Heq. apply H. now right.
Qed.

Lemma InvS_init tid : InvS (init tid).
Proof.
  split; simpl; intros; try done.
  unfold llm_calls, send_calls. simpl. lia.
Qed.

Ltac counts :=
  rewrite ?snoc2, ?llm_calls_snoc, ?send_calls_snoc;
  cbn [is_llm_call is_send_call]; rewrite ?eqb_reply, ?Nat.add_0_r.

Ltac differ m m' :=
  let E := fresh in
  assert ((m =? m')%string = false) as E
    by (apply String.eqb_neq; first [congruence | intros ?; subst; tauto]);
  rewrite ?E, ?Nat.add_0_r.

Lemma InvS_step c a : Inv1 c -> InvS c -> InvS (step c a).
Proof.
  intros H1 [Hon Hnew Hcr Hpr].
  destruct (step_transition c a)
    as [ | msg now a0 f0 Hn Haf | i a0 f0 Hl | i a0 m cont rto res Hl
       | i a0 m cont rto res Hl | i a0 m cont rto res idx ob Hl Hidx Hid Hs
       | i a0 m rto resp rid idx res Hl ].
  - now split.
  - (* a new message *)
    set (mid := msg_message_id msg) in *.
    assert (Hold : forall a1 f1, (a1, f1) ∈ pending c -> frame_mid f1 <> mid).
    { intros a1 f1 Hin Heq. apply Hn. rewrite <- Heq.
      now apply (pending_recorded c a1 f1). }
    destruct (Hnew mid Hn) as [Hl0 Hs0].
    destruct (str_in _ (msg_content msg)); injection Haf as -> ->;
      split; cbn [history pending wf_state]; unfold ids in *;
      cbn [wf_state inbound_messages].
    + intros m. counts. apply Hon.
    + intros m Hm. counts. apply Hnew. now apply not_in_snoc in Hm.
    + intros a1 m cont rto. rewrite elem_of_app, list_elem_of_singleton. counts.
      intros [Hin | [= -> -> -> ->]]; [now apply (Hcr a1 m cont rto)|].
      now apply Hnew.
    + intros a1 m cont rto. rewrite elem_of_app, list_elem_of_singleton. counts.
      intros [Hin | [=]]. now apply (Hpr a1 m cont rto).
    + intros m. counts. destruct (Hon m) as [Hm1 Hm2]. split; [|done].
      destruct (String.eqb_spec mid m) as [<-|]; lia.
    + intros m Hm. apply not_in_snoc in Hm as [Hm Hne]. cbn [message_id] in Hne.
      counts. differ mid m. now apply Hnew.
    + intros a1 m cont rto. rewrite elem_of_app, list_elem_of_singleton. counts.
      intros [Hin | [=]]. specialize (Hold _ _ Hin). cbn [frame_mid] in Hold.
      differ mid m. now apply (Hcr a1 m cont rto).
    + intros a1 m cont rto. rewrite elem_of_app, list_elem_of_singleton. counts.
      intros [Hin | [= -> -> -> ->]]; [now apply (Hpr a1 m cont rto) | done].
  - (* an activity failed *)
    split; cbn [history pending wf_state].
    + intros m. counts. apply Hon.
    + intros m Hm. counts. now apply Hnew.
    + intros a1 m cont rto Hin. counts.
      eapply Hcr, delete_elem_of, Hin.
    + intros a1 m cont rto Hin. counts.
      eapply Hpr, delete_elem_of, Hin.
  - (* past the crash checkpoint *)
    destruct (Hcr a0 m cont rto (lookup_pending _ _ _ _ Hl)) as [Hl0 Hs0].
    pose proof (pending_recorded c _ _ H1 (lookup_pending _ _ _ _ Hl)) as Hrec.
    cbn [frame_mid] in Hrec.
    split; cbn [history pending wf_state].
    + intros m'. counts. destruct (Hon m') as [Hm1 Hm2]. split; [|done].
      destruct (String.eqb_spec m m') as [<-|]; lia.
    + intros m' Hm'. counts. differ m m'. now apply Hnew.
    + intros a1 m' cont' rto'. rewrite elem_of_app, list_elem_of_singleton. counts.
      intros [Hin | [=]].
      destruct (delete_other c i _ _ _ _ H1 Hl Hin) as [Hin' Hne].
      cbn [frame_mid] in Hne. differ m m'. now apply (Hcr a1 m' cont' rto').
    + intros a1 m' cont' rto'. rewrite elem_of_app, list_elem_of_singleton. counts.
      intros [Hin | [= -> -> -> ->]]; [|done].
      destruct (delete_other c i _ _ _ _ H1 Hl Hin) as [Hin' Hne].
      now apply (Hpr a1 m' cont' rto').
  - (* dispatch without transmission *)
    split; cbn [history pending wf_state]; unfold ids in *;
      rewrite ?upsert_inbound.
    + intros m'. counts. apply Hon.
    + intros m' Hm'. cbn [wf_state] in Hm'. rewrite ?upsert_inbound in Hm'.
      counts. now apply Hnew.
    + intros a1 m' cont' rto' Hin. counts. eapply Hcr, delete_elem_of, Hin.
    + intros a1 m' cont' rto' Hin. counts. eapply Hpr, delete_elem_of, Hin.
  - (* dispatch with transmission *)
    pose proof (Hpr a0 m cont rto (lookup_pending _ _ _ _ Hl)) as Hs0.
    pose proof (pending_recorded c _ _ H1 (lookup_pending _ _ _ _ Hl)) as Hrec.
    cbn [frame_mid] in Hrec.
    split; cbn [history pending wf_state]; unfold ids in *;
      rewrite ?upsert_inbound.
    + intros m'. counts. destruct (Hon m') as [Hm1 Hm2]. split; [done|].
      destruct (String.eqb_spec m m') as [<-|]; lia.
    + intros m' Hm'. cbn [wf_state] in Hm'. rewrite ?upsert_inbound in Hm'.
      counts. differ m m'. now apply Hnew.
    + intros a1 m' cont' rto'. rewrite elem_of_app, list_elem_of_singleton. counts.
      intros [Hin | [=]].
      destruct (delete_other c i _ _ _ _ H1 Hl Hin) as [Hin' Hne].
      cbn [frame_mid] in Hne. differ m m'. now apply (Hcr a1 m' cont' rto').
    + intros a1 m' cont' rto'. rewrite elem_of_app, list_elem_of_singleton. counts.
      intros [Hin | [=]].
      destruct (delete_other c i _ _ _ _ H1 Hl Hin) as [Hin' Hne].
      cbn [frame_mid] in Hne. differ m m'. now apply (Hpr a1 m' cont' rto').
  - (* a reply marked sent *)
    split; cbn [history pending wf_state]; unfold ids in *.
    + intros m'. counts. apply Hon.
    + intros m' Hm'. cbn [wf_state] in Hm'. rewrite ?upsert_inbound in Hm'.
      counts. now apply Hnew.
    + intros a1 m' cont' rto' Hin. counts. eapply Hcr, delete_elem_of, Hin.
    + intros a1 m' cont' rto' Hin. counts. eapply Hpr, delete_elem_of, Hin.
Qed.

Lemma InvS_exec tid acts : InvS (exec tid acts).
Proof.
  apply (exec_ind (fun c => Inv1 c /\ InvS c)).
  - auto using Inv1_init, InvS_init.
  - intros c a [? ?]. auto using Inv1_step, InvS_step.
Qed.

(** X5 (each activity at most once per message). In every schedule, for
    every message id, the LLM activity is scheduled at most once and the
    transmission of its reply is scheduled at most once, and neither is
    scheduled for an id that was never delivered: redelivering a message
    whose handler raised does not run the handler again. *)
Theorem activities_at_most_once tid acts m :
  (llm_calls m (history (exec tid acts)) <= 1)%nat /\
  (send_calls (reply_id_of m) (history (exec tid acts)) <= 1)%nat /\
  (m ∉ delivered_ids acts ->
   llm_calls m (history (exec tid acts)) = 0%nat /\
   send_calls (reply_id_of m) (history (exec tid acts)) = 0%nat).
Proof.
  destruct (InvS_exec tid acts) as [Hon Hnew _ _].
  destruct (Hon m) as [? ?]. repeat split; try done.
  - apply Hnew. now rewrite ids_delivered.
  - apply Hnew. now rewrite ids_delivered.
Qed.

Lemma activities_at_most_once_witness :
  llm_calls "m1" (history (exec "t1" order66)) = 0%nat /\
  send_calls (reply_id_of "m1") (history (exec "t1" order66)) = 0%nat.
Proof.
  apply (activities_at_most_once "t1" order66 "m1").
  vm_compute. intros H. repeat (apply elem_of_cons in H as [H|H]; [discriminate|]).
  inversion H.
Defined.

Lemma transmissions_snoc rid h e :
  transmissions rid (h ++ [e]) =
  (transmissions rid h + if is_transmission rid e then 1 else 0)%nat.
Proof. now rewrite transmissions_app, transmissions_one. Qed.

Lemma not_transmission_failed rid f a : is_transmission rid (Resolved f a Failed) = false.
Proof. now destruct a. Qed.

Lemma InvSent_init tid : InvSent (init tid).
Proof.
  split; simpl; intros.
  - match goal with H : _ ∈ [] |- _ => now apply elem_of_nil in H end.
  - done.
Qed.

Ltac txs :=
  rewrite ?snoc2, ?transmissions_snoc, ?not_transmission_failed;
  cbn [is_transmission]; rewrite ?Nat.add_0_r.

(** A record the upsert creates has no transmission yet. *)
Lemma fresh_reply_untransmitted c i a m cont rto :
  Inv1 c -> InvT c ->
  pending c !! i = Some (a, at_process_message m cont rto) ->
  transmissions (reply_id_of m) (history c) = 0%nat.
Proof.
  intros H1 HT Hl. destruct (transmissions _ (history c)) eqn:E; [done|].
  destruct (HT (reply_id_of m)) as (_ & m' & Hm & _ & Hn); [lia|].
  apply reply_id_inj in Hm. subst m'. exfalso. apply Hn.
  apply list_elem_of_lookup. exists i.
  now rewrite (pend_ids_lookup c i a _ Hl).
Qed.

Lemma upsert_lookup rid rto st idx ob :
  outbound_messages st !! idx = Some ob ->
  outbound_messages (upsert rid rto st) !! idx = Some ob.
Proof.
  intros H. destruct (upsert_outbound rid rto st) as [[_ ->] | [_ ->]]; [done|].
  rewrite lookup_app_l; [done|]. now apply lookup_lt_Some in H.
Qed.

Lemma upsert_lookup_inv rid rto st idx ob :
  outbound_messages (upsert rid rto st) !! idx = Some ob ->
  outbound_messages st !! idx = Some ob \/
  (ob = mkOutbound rid rto false /\ rid ∉ out_message_id <$> outbound_messages st).
Proof.
  destruct (upsert_outbound rid rto st) as [[_ ->] | [Hn ->]]; [auto|].
  intros H. apply lookup_app_Some in H as [H | [_ H]]; [auto|].
  right. split; [|done].
  destruct (idx - length (outbound_messages st))%nat; simpl in H; [|done].
  congruence.
Qed.

Lemma InvSent_step c a : Inv1 c -> InvT c -> InvO c -> InvSent c -> InvSent (step c a).
Proof.
  intros H1 HT [HO _] [Hal Hse].
  destruct (step_transition c a)
    as [ | msg now a0 f0 Hn Haf | i a0 f0 Hl | i a0 m cont rto res Hl
       | i a0 m cont rto res Hl | i a0 m cont rto res idx ob Hl Hidx Hid Hs
       | i a0 m rto resp rid idx res Hl ].
  - now split.
  - split; cbn [history pending wf_state outbound_messages].
    + intros a1 m rto resp rid idx. rewrite elem_of_app, list_elem_of_singleton.
      intros [Hin | Heq]; [now apply (Hal a1 m rto resp rid idx)|].
      rewrite <- Heq in Haf. now destruct (str_in _ _).
    + intros idx ob Hob. txs. exact (Hse _ _ Hob).
  - split; cbn [history pending wf_state outbound_messages].
    + intros a1 m rto resp rid idx Hin.
      eapply Hal, delete_elem_of, Hin.
    + intros idx ob Hob. txs. exact (Hse _ _ Hob).
  - pose proof (inv_tag c H1 _ _ (lookup_pending _ _ _ _ Hl)) as Ht.
    simpl in Ht. subst a0.
    split; cbn [history pending wf_state outbound_messages].
    + intros a1 m' rto' resp rid idx. rewrite elem_of_app, list_elem_of_singleton.
      intros [Hin | [=]]. eapply Hal, delete_elem_of, Hin.
    + intros idx ob Hob. txs. exact (Hse _ _ Hob).
  - pose proof (inv_tag c H1 _ _ (lookup_pending _ _ _ _ Hl)) as [t ->].
    pose proof (fresh_reply_untransmitted c i _ m cont rto H1 HT Hl) as Hz.
    split; cbn [history pending wf_state].
    + intros a1 m' rto' resp rid idx Hin.
      destruct (Hal a1 m' rto' resp rid idx) as (ob & Hob & Hid);
        [eapply delete_elem_of, Hin|].
      exists ob. split; [now apply upsert_lookup | done].
    + intros idx ob Hob. txs.
      apply upsert_lookup_inv in Hob as [Hob | [-> _]]; [exact (Hse _ _ Hob)|].
      cbn [sent out_message_id]. rewrite Hz. split; [done | lia].
  - pose proof (inv_tag c H1 _ _ (lookup_pending _ _ _ _ Hl)) as [t ->].
    pose proof (fresh_reply_untransmitted c i _ m cont rto H1 HT Hl) as Hz.
    split; cbn [history pending wf_state].
    + intros a1 m' rto' resp rid idx'. rewrite elem_of_app, list_elem_of_singleton.
      intros [Hin | [= -> -> -> -> -> ->]]; [|eauto].
      destruct (Hal a1 m' rto' resp rid idx') as (ob' & Hob & Hid');
        [eapply delete_elem_of, Hin|].
      exists ob'. split; [now apply upsert_lookup | done].
    + intros idx' ob' Hob. txs.
      apply upsert_lookup_inv in Hob as [Hob | [-> _]]; [exact (Hse _ _ Hob)|].
      cbn [sent out_message_id]. rewrite Hz. split; [done | lia].
  - pose proof (inv_tag c H1 _ _ (lookup_pending _ _ _ _ Hl)) as Ht.
    simpl in Ht. destruct Ht as [[t ->] ->].
    destruct (Hal _ _ _ _ _ _ (lookup_pending _ _ _ _ Hl)) as (ob & Hob & Hid).
    split; cbn [history pending wf_state mark_sent outbound_messages].
    + intros a1 m' rto' resp' rid' idx' Hin.
      destruct (Hal a1 m' rto' resp' rid' idx') as (ob' & Hob' & Hid');
        [eapply delete_elem_of, Hin|].
      destruct (decide (idx = idx')) as [<-|Hne].
      * rewrite list_lookup_alter_eq, Hob'. simpl. eauto.
      * rewrite list_lookup_alter_ne by done. eauto.
    + intros j obj. txs. destruct (decide (idx = j)) as [<-|Hne].
      * rewrite list_lookup_alter_eq, Hob. cbn [fmap option_fmap option_map].
        intros [= <-]. cbn [sent out_message_id]. rewrite Hid, String.eqb_refl.
        split; [lia | done].
      * rewrite list_lookup_alter_ne by done. intros Hj.
        assert (Hdiff : (reply_id_of m =? out_message_id obj)%string = false).
        { apply String.eqb_neq. intros Heq. apply Hne.
          apply (NoDup_lookup _ idx j (reply_id_of m) HO); unfold out_ids;
            rewrite list_lookup_fmap.
          - now rewrite Hob, <- Hid.
          - now rewrite Hj, Heq. }
        rewrite Hdiff, Nat.add_0_r. exact (Hse _ _ Hj).
Qed.

Lemma InvSent_exec tid acts : InvSent (exec tid acts).
Proof.
  apply (exec_ind (fun c => (Inv1 c /\ InvT c /\ InvH c /\ InvO c) /\ InvSent c)).
  - split; [|apply InvSent_init].
    auto using Inv1_init, InvT_init, InvH_init, InvO_init.
  - intros c a [(H1 & HT & HH & HO) HS]. split.
    + auto using Inv1_step, InvT_step, InvH_step, InvO_step.
    + now apply InvSent_step.
Qed.

(** X6 (the sent flag tells the truth). In every schedule, an outbox
    record is marked sent exactly when the transmission under its reply id
    has completed, and then it has completed exactly once; a record whose
    transmission failed or is still pending is not marked. *)
Theorem sent_iff_transmitted tid acts ob :
  ob ∈ outbound_messages (wf_state (exec tid acts)) ->
  (sent ob = true <->
   transmissions (out_message_id ob) (history (exec tid acts)) = 1%nat) /\
  (sent ob = false <->
   transmissions (out_message_id ob) (history (exec tid acts)) = 0%nat).
Proof.
  intros Hin. apply list_elem_of_lookup in Hin as [idx Hidx].
  destruct (InvSent_exec tid acts) as [_ Hse].
  destruct (invariants tid acts) as (_ & HT & _).
  specialize (Hse idx ob Hidx). specialize (HT (out_message_id ob)).
  set (T := transmissions (out_message_id ob) (history (exec tid acts))) in *.
  assert (Hc : (sent ob = true /\ T = 1%nat) \/ (sent ob = false /\ T = 0%nat)).
  { destruct (sent ob).
    - left. split; [done|]. apply HT. now apply Hse.
    - right. split; [done|]. destruct T; [done|].
      assert (false = true); [apply Hse; lia | done]. }
  destruct Hc as [[-> ->] | [-> ->]]; split; split; intros; congruence || lia.
Qed.

Lemma sent_iff_transmitted_witness :
  (sent (mkOutbound "r-m3" a_url true) = true <->
   transmissions "r-m3" (history (exec "t1" order66)) = 1%nat) /\
  (sent (mkOutbound "r-m3" a_url true) = false <->
   transmissions "r-m3" (history (exec "t1" order66)) = 0%nat).
Proof.
  apply (sent_iff_transmitted "t1" order66 (mkOutbound "r-m3" a_url true)).
  vm_compute. left.
Defined.

(** *** Routing *)

Lemma backed_grow tid st st' a f :
  task_id st' = task_id st ->
  (forall r, r ∈ inbound_messages st -> r ∈ inbound_messages st') ->
  backed tid st a f -> backed tid st' a f.
Proof.
  intros _ Hsub (r & Hr & H). exists r. split; [auto | exact H].
Qed.

Lemma elem_of_alter {A} (g : A -> A) i (l : list A) x :
  x ∈ alter g i l -> x ∈ l \/ exists y, y ∈ l /\ x = g y.
Proof.
  intros H. apply list_elem_of_lookup in H as [j Hj].
  destruct (decide (i = j)) as [<-|Hne].
  - rewrite list_lookup_alter_eq in Hj.
    destruct (l !! i) as [y|] eqn:E; [|done]. injection Hj as <-.
    right. exists y. split; [|done]. apply list_elem_of_lookup. eauto.
  - rewrite list_lookup_alter_ne in Hj by done.
    left. apply list_elem_of_lookup. eauto.
Qed.

Lemma InvR_init tid : InvR tid (init tid).
Proof.
  split; simpl; intros; try done;
    match goal with H : _ ∈ [] |- _ => now apply elem_of_nil in H end.
Qed.

Lemma InvR_step tid c a : InvR tid c -> InvR tid (step c a).
Proof.
  intros [Htid Hpe Hout Hhi].
  destruct (step_transition c a)
    as [ | msg now a0 f0 Hn Haf | i a0 f0 Hl | i a0 m cont rto res Hl
       | i a0 m cont rto res Hl | i a0 m cont rto res idx ob Hl Hidx Hid Hs
       | i a0 m rto resp rid idx res Hl ].
  - now split.
  - (* a new message *)
    set (st' := mkState _ _ _).
    assert (Hsub : forall r, r ∈ inbound_messages (wf_state c) ->
                             r ∈ inbound_messages st').
    { intros r Hr. subst st'. cbn [inbound_messages]. apply elem_of_app. now left. }
    assert (Hnewb : backed tid st' a0 f0).
    { exists (mkInbound (msg_message_id msg) (msg_content msg)
                (msg_reply_to msg) now).
      split; [subst st'; cbn [inbound_messages]; apply elem_of_app; right;
              now apply list_elem_of_singleton|].
      destruct (str_in _ (msg_content msg)); injection Haf as -> ->;
        cbn [message_id reply_to content frame_mid frame_rto frame_cont];
        repeat split; try done; now intros ? [= <-]. }
    split; cbn [history pending wf_state].
    + done.
    + intros a1 f1. rewrite elem_of_app, list_elem_of_singleton.
      intros [Hin | [= -> ->]]; [|done].
      apply (backed_grow tid (wf_state c) st'); [done | exact Hsub | now apply Hpe].
    + intros ob Hob. destruct (Hout ob Hob) as (r & Hr & H). eauto.
    + intros e. rewrite elem_of_app, list_elem_of_singleton.
      intros [Hin | ->]; [|done].
      apply (backed_grow tid (wf_state c) st'); [done | exact Hsub | now apply Hhi].
  - (* an activity failed *)
    split; cbn [history pending wf_state]; try done.
    + intros a1 f1 Hin. eapply Hpe, delete_elem_of, Hin.
    + intros e. rewrite elem_of_app, list_elem_of_singleton.
      intros [Hin | ->]; [now apply Hhi|].
      apply Hpe, list_elem_of_lookup; eauto.
  - (* past the crash checkpoint *)
    pose proof (Hpe _ _ (proj2 (list_elem_of_lookup _ _) (ex_intro _ i Hl))) as Hb.
    assert (Hb' : backed tid (wf_state c)
                    (process_message (task_id (wf_state c)) m cont)
                    (at_process_message m cont rto)).
    { destruct Hb as (r & Hr & Hm & Hrto & Hc & _). exists r.
      cbn [frame_mid frame_rto frame_cont] in *. repeat split; try done. }
    split; cbn [history pending wf_state]; try done.
    + intros a1 f1. rewrite elem_of_app, list_elem_of_singleton.
      intros [Hin | [= -> ->]]; [|done]. eapply Hpe, delete_elem_of, Hin.
    + intros e. rewrite elem_of_app, !elem_of_cons, elem_of_nil.
      intros [Hin | [-> | [-> | []]]]; [now apply Hhi | done | done].
  - (* dispatch without transmission *)
    pose proof (Hpe _ _ (proj2 (list_elem_of_lookup _ _) (ex_intro _ i Hl))) as Hb.
    set (st' := upsert (reply_id_of m) rto (wf_state c)).
    assert (Hgrow : forall a1 f1, backed tid (wf_state c) a1 f1 -> backed tid st' a1 f1).
    { intros a1 f1. apply backed_grow; subst st'.
      - apply upsert_task_id.
      - intros r. now rewrite upsert_inbound. }
    split; cbn [history pending wf_state]; fold st'.
    + subst st'. now rewrite upsert_task_id.
    + intros a1 f1 Hin. eapply Hgrow, Hpe, delete_elem_of, Hin.
    + intros ob Hob. subst st'. rewrite upsert_inbound.
      apply list_elem_of_lookup in Hob as [j Hj].
      apply upsert_lookup_inv in Hj as [Hj | [-> _]].
      * apply Hout, list_elem_of_lookup. eauto.
      * destruct Hb as (r & Hr & Hm & Hrto & _). exists r.
        cbn [frame_mid frame_rto out_message_id recipient_url] in *.
        now rewrite Hm, Hrto.
    + intros e. rewrite elem_of_app, list_elem_of_singleton.
      intros [Hin | ->]; apply Hgrow; [now apply Hhi | done].
  - (* dispatch with transmission *)
    pose proof (Hpe _ _ (proj2 (list_elem_of_lookup _ _) (ex_intro _ i Hl))) as Hb.
    set (st' := upsert (reply_id_of m) rto (wf_state c)).
    assert (Hgrow : forall a1 f1, backed tid (wf_state c) a1 f1 -> backed tid st' a1 f1).
    { intros a1 f1. apply backed_grow; subst st'.
      - apply upsert_task_id.
      - intros r. now rewrite upsert_inbound. }
    assert (Hb' : backed tid (wf_state c)
                    (send_a2a_message rto (task_id (wf_state c)) (reply_id_of m) res)
                    (at_send_a2a_message m rto res (reply_id_of m) idx)).
    { destruct Hb as (r & Hr & Hm & Hrto & Hc & _). exists r.
      cbn [frame_mid frame_rto frame_cont] in *. repeat split; try done. }
    split; cbn [history pending wf_state]; fold st'.
    + subst st'. now rewrite upsert_task_id.
    + intros a1 f1. rewrite elem_of_app, list_elem_of_singleton.
      intros [Hin | [= -> ->]]; apply Hgrow; [|done].
      eapply Hpe, delete_elem_of, Hin.
    + intros ob' Hob. subst st'. rewrite upsert_inbound.
      apply list_elem_of_lookup in Hob as [j Hj].
      apply upsert_lookup_inv in Hj as [Hj | [-> _]].
      * apply Hout, list_elem_of_lookup. eauto.
      * destruct Hb as (r & Hr & Hm & Hrto & _). exists r.
        cbn [frame_mid frame_rto out_message_id recipient_url] in *.
        now rewrite Hm, Hrto.
    + intros e. rewrite elem_of_app, !elem_of_cons, elem_of_nil.
      intros [Hin | [-> | [-> | []]]]; apply Hgrow; [now apply Hhi | done | done].
  - (* a reply marked sent *)
    pose proof (Hpe _ _ (proj2 (list_elem_of_lookup _ _) (ex_intro _ i Hl))) as Hb.
    split; cbn [history pending wf_state mark_sent]; try done.
    + intros a1 f1 Hin. eapply Hpe, delete_elem_of, Hin.
    + intros ob Hob. cbn [outbound_messages inbound_messages] in *.
      apply elem_of_alter in Hob as [Hob | (y & Hy & ->)]; [now apply Hout|].
      destruct (Hout y Hy) as (r & Hr & H1 & H2). exists r. done.
    + intros e. rewrite elem_of_app, list_elem_of_singleton.
      intros [Hin | ->]; [now apply Hhi | done].
Qed.

Lemma InvR_exec tid acts : InvR tid (exec tid acts).
Proof. apply exec_ind; [apply InvR_init | apply InvR_step]. Qed.

(** X4 (replies are routed from the ledger). In every schedule, every
    outbox record and every transmission goes to the reply address stored
    with the inbound record of its message, that is, the reply address of
    the message's first delivery, under the reply id derived from that
    message and the workflow's own task id; and every LLM call receives
    the workflow's task id and the id and content of an inbound record. *)
Theorem replies_routed_from_ledger tid acts :
  let c := exec tid acts in
  task_id (wf_state c) = tid /\
  (forall ob, ob ∈ outbound_messages (wf_state c) ->
     exists r, r ∈ first_deliveries acts /\
       out_message_id ob = reply_id_of (message_id r) /\
       recipient_url ob = reply_to r) /\
  (forall e url t rid resp, e ∈ history c ->
     event_act e = send_a2a_message url t rid resp ->
     t = tid /\
     exists r, r ∈ first_deliveries acts /\
       rid = reply_id_of (message_id r) /\ url = reply_to r) /\
  (forall e t m cont, e ∈ history c ->
     event_act e = process_message t m cont ->
     t = tid /\
     exists r, r ∈ first_deliveries acts /\ message_id r = m /\ content r = cont).
Proof.
  intros c. destruct (InvR_exec tid acts) as [Htid _ Hout Hhi]. fold c in Htid, Hout, Hhi.
  rewrite <- (ledger_first_deliveries_eq tid acts). fold c.
  split; [done|]. split; [exact Hout|]. split.
  - intros e url t rid resp He Ha. destruct (Hhi e He) as (r & Hr & Hm & Hrto & _ & Hact).
    rewrite Ha in Hact. destruct Hact as (-> & -> & ->). split; [done|].
    exists r. now rewrite Hm.
  - intros e t m cont He Ha. destruct (Hhi e He) as (r & Hr & Hm & _ & Hc & Hact).
    rewrite Ha in Hact. destruct Hact as (-> & -> & Hfc). split; [done|].
    exists r. split; [done|]. split; [done|]. now apply Hc.
Qed.

Lemma replies_routed_from_ledger_witness :
  exists r, (r ∈ first_deliveries order66) /\
    out_message_id (mkOutbound "r-m3" a_url true) = reply_id_of (message_id r) /\
    recipient_url (mkOutbound "r-m3" a_url true) = reply_to r.
Proof.
  apply (proj1 (proj2 (replies_routed_from_ledger "t1" order66))).
  vm_compute. left.
Defined.

End OutboxFacts.

(** * Further properties: InitiatorWorkflow *)

Module InitiatorMore.
Import InitiatorWorkflow InitiatorFacts.

Lemma same_course_refl c : same_course c c.
Proof. now split. Qed.

Lemma goto_same c c' st st' next next' :
  same_course c c' ->
  taskId st = taskId st' -> sentMessages st = sentMessages st' ->
  fst next = fst next' ->
  sends (mkConfig (args c) st (fst next) (snd next)) =
    sends (mkConfig (args c) st (fst next) (snd next')) ->
  timers (mkConfig (args c) st (fst next) (snd next)) =
    timers (mkConfig (args c) st (fst next) (snd next')) ->
  same_course (goto c st next) (goto c' st' next').
Proof.
  intros [Ha Hp Ht Hs Hse Hti] Htask Hsent Hn Hns Hnt. unfold goto.
  split; cbn [args at_point state]; try done.
  - unfold sends in *. cbn [commands] in *. now rewrite !omap_app, Hse, Hns.
  - unfold timers in *. cbn [commands] in *. now rewrite !omap_app, Hti, Hnt.
Qed.

Lemma step_same c c' ev :
  same_course c c' -> is_reply ev = false ->
  same_course (step c ev) (step c' ev).
Proof.
  intros Hsame Hnr. pose proof Hsame as [Ha Hp Ht Hs Hse Hti].
  destruct ev as [e t]. unfold step. rewrite <- Hp, <- Ha.
  destruct e as [[|] | | reply]; [| | |done];
    destruct (at_point c) as [i mid cont|i| |]; try done;
    apply goto_same; cbn [taskId sentMessages]; try done.
  now rewrite Hs.
Qed.

Lemma step_reply_same c c' ev :
  same_course c c' -> is_reply ev = true -> same_course (step c ev) c'.
Proof.
  intros [Ha Hp Ht Hs Hse Hti] Hr. destruct ev as [e t].
  destruct e as [[|] | | reply]; try done. unfold step.
  destruct (at_point c) as [i mid cont|i| |] eqn:E; split;
    cbn [args at_point state taskId sentMessages]; try done;
    unfold sends, timers in *; cbn [commands]; first [done | congruence].
Qed.

(** X7 (replies do not steer the conversation). The reply signals a
    workflow receives change nothing but [receivedReplies]: with all of
    them removed from the history the workflow is at the same point, has
    recorded the same sent turns, and has scheduled the same sends and the
    same timers. In particular a reply that arrives early does not shorten
    the 30 s wait. *)
Theorem replies_do_not_steer a evs :
  same_course (run a evs) (run a (without_replies evs)).
Proof.
  unfold without_replies.
  induction evs as [|ev evs IH] using rev_ind; [apply same_course_refl|].
  rewrite filter_app, filter_cons, filter_nil, run_snoc.
  destruct (is_reply ev) eqn:E.
  - rewrite decide_False by done. rewrite app_nil_r.
    now apply step_reply_same.
  - rewrite decide_True by done. rewrite run_snoc. now apply step_same.
Qed.

(** X8 (sent turns in order, one wait per sent turn). In every reachable
    state the ids in [sentMessages] are a subsequence of m1, m2, m3: no
    turn is recorded twice or out of order. The timers started so far are
    one 30 s timer for each recorded turn, followed by the 10 s timer once
    the loop is over; a turn whose send failed starts no timer. *)
Theorem sent_in_order a evs :
  let c := run a evs in
  (messageId <$> sentMessages (state c)) `sublist_of` ["m1"; "m2"; "m3"] /\
  NoDup (messageId <$> sentMessages (state c)) /\
  timers c =
    (replicate (length (sentMessages (state c))) 30%nat ++
     match at_point c with Sleep10 | Completed => [10%nat] | _ => [] end)%list.
Proof.
  intros c. destruct (Inv_run a evs) as [Hp _ Hsub Ht]. fold c in Hp, Hsub, Ht.
  assert (Hs : (messageId <$> sentMessages (state c))
                 `sublist_of` ["m1"; "m2"; "m3"]).
  { apply (fmap_sublist fst) in Hsub. rewrite <- !list_fmap_compose in Hsub.
    etrans; [exact Hsub|].
    change ["m1"; "m2"; "m3"] with ((fst ∘ turn_key) <$> seq 1 3).
    apply fmap_sublist.
    assert (recorded (at_point c) <= 3)%nat as Hle.
    { destruct (at_point c); simpl in *; lia. }
    destruct (DemoDriverFacts.seq_prefix _ Hle) as [k ->].
    now apply sublist_inserts_r. }
  split; [done|]. split; [|done].
  eapply sublist_NoDup; [|exact Hs].
  repeat (apply NoDup_cons; split;
    [intros H; repeat (apply elem_of_cons in H as [H|H]; [discriminate|]);
     inversion H|]).
  constructor.
Qed.

End InitiatorMore.

(** * Further properties: HTTP handlers and the path between the agents *)

Module CrossAgentFacts.
Import DemoDriver.

Local Ltac no_call :=
  cbn [fst snd]; refine (conj _ (conj _ (conj _ _)));
  [ done
  | intros ? ? ? H; now apply elem_of_nil in H
  | intros [= H]; discriminate H
  | intros ? [=] ].

(** X9 (Agent B's endpoint: what has happened when it fails). The handler
    asks nothing of Temporal when [params] or one of its four keys is
    missing; it signals only after the workflow start returned; and a
    request that lacks only the top-level [id] fails after the workflow
    has been started and signalled, so the message is delivered although
    the sender is answered with an error. *)
Theorem receive_message_effects b start_ok signal_ok :
  let r := AgentBServer.receive_message b start_ok signal_ok in
  (forall k, fst r = AgentBServer.Raises (AgentBServer.KeyError k) ->
     k <> "id" -> snd r = []) /\
  (forall wid s p, AgentBServer.SignalWorkflow wid s p ∈ snd r ->
     start_ok wid = true /\ s = "inbound_message" /\
     exists tid, wid = "task-" ++ tid /\
       snd r = [AgentBServer.StartWorkflow wid [tid] "agent-b-tasks";
                AgentBServer.SignalWorkflow wid s p]) /\
  (fst r = AgentBServer.Raises (AgentBServer.KeyError "id") ->
     AgentBServer.b_id b = None /\
     exists wid p, AgentBServer.SignalWorkflow wid "inbound_message" p ∈ snd r) /\
  (forall i, fst r = AgentBServer.Received i ->
     AgentBServer.b_id b = Some i /\ length (snd r) = 2%nat).
Proof.
  cbv zeta. unfold AgentBServer.receive_message. cbv zeta.
  destruct (AgentBServer.b_params b) as [p|]; [|no_call].
  destruct (AgentBServer.taskId p) as [tid|]; [|no_call].
  destruct (AgentBServer.messageId p) as [mid|]; [|no_call].
  destruct (AgentBServer.replyTo p) as [rto|]; [|no_call].
  destruct (AgentBServer.content p) as [cont|]; [|no_call].
  assert (Hsig : forall wid s q,
    AgentBServer.SignalWorkflow wid s q ∈
      [AgentBServer.StartWorkflow ("task-" ++ tid) [tid] "agent-b-tasks";
       AgentBServer.SignalWorkflow ("task-" ++ tid) "inbound_message"
         (TaskWorkflow.mkMsg mid cont rto)] ->
    wid = "task-" ++ tid /\ s = "inbound_message" /\
    q = TaskWorkflow.mkMsg mid cont rto).
  { intros wid s q Hin.
    apply elem_of_cons in Hin as [Hin|Hin]; [discriminate|].
    apply elem_of_cons in Hin as [Hin|Hin]; [|now apply elem_of_nil in Hin].
    injection Hin as -> -> ->. done. }
  assert (Hsig' : forall wid s q,
    AgentBServer.SignalWorkflow wid s q ∈
      [AgentBServer.StartWorkflow ("task-" ++ tid) [tid] "agent-b-tasks";
       AgentBServer.SignalWorkflow ("task-" ++ tid) "inbound_message"
         (TaskWorkflow.mkMsg mid cont rto)] ->
    start_ok ("task-" ++ tid) = true ->
    start_ok wid = true /\ s = "inbound_message" /\
     exists tid0, wid = "task-" ++ tid0 /\
       [AgentBServer.StartWorkflow ("task-" ++ tid) [tid] "agent-b-tasks";
        AgentBServer.SignalWorkflow ("task-" ++ tid) "inbound_message"
         (TaskWorkflow.mkMsg mid cont rto)] =
       [AgentBServer.StartWorkflow wid [tid0] "agent-b-tasks";
        AgentBServer.SignalWorkflow wid s q]).
  { intros wid s q Hin Hs. apply Hsig in Hin as (-> & -> & ->).
    split; [done|]. split; [done|]. now exists tid. }
  destruct (start_ok ("task-" ++ tid)) eqn:Hs.
  - destruct (signal_ok ("task-" ++ tid)) eqn:Hg.
    + destruct (AgentBServer.b_id b) as [i|] eqn:Hi; cbn [fst snd].
      * refine (conj _ (conj _ (conj _ _))).
        -- intros k [=].
        -- intros wid s q Hin. now apply Hsig'.
        -- intros [=].
        -- intros i' [= <-]. done.
      * refine (conj _ (conj _ (conj _ _))).
        -- intros k [= <-] Hk. done.
        -- intros wid s q Hin. now apply Hsig'.
        -- intros _. split; [done|].
           eexists _, _. apply elem_of_cons; right. apply elem_of_cons; left.
           reflexivity.
        -- intros i' [=].
    + cbn [fst snd]. refine (conj _ (conj _ (conj _ _))).
      * intros k [=].
      * intros wid s q Hin. now apply Hsig'.
      * intros [=].
      * intros i' [=].
  - cbn [fst snd]. refine (conj _ (conj _ (conj _ _))).
    + intros k [=].
    + intros wid s q Hin. apply elem_of_cons in Hin as [Hin|Hin]; [discriminate|].
      now apply elem_of_nil in Hin.
    + intros [=].
    + intros i' [=].
Qed.

Lemma receive_message_effects_witness :
  AgentBServer.b_id
    (AgentBServer.mkBody
       (Some (AgentBServer.mkParams (Some "t1") (Some "m1")
                (Some "http://agent-a:8081/a2a/message/send") (Some "hello")))
       None) = None /\
  exists wid p,
    AgentBServer.SignalWorkflow wid "inbound_message" p ∈
      snd (AgentBServer.receive_message
             (AgentBServer.mkBody
                (Some (AgentBServer.mkParams (Some "t1") (Some "m1")
                         (Some "http://agent-a:8081/a2a/message/send")
                         (Some "hello")))
                None)
             (fun _ => true) (fun _ => true)).
Proof.
  apply (proj1 (proj2 (proj2 (receive_message_effects
    (AgentBServer.mkBody
       (Some (AgentBServer.mkParams (Some "t1") (Some "m1")
                (Some "http://agent-a:8081/a2a/message/send") (Some "hello")))
       None)
    (fun _ => true) (fun _ => true))))).
  reflexivity.
Defined.

(** X10 (Agent A's turns are well-formed requests for Agent B). Whatever
    happens to the initiator workflow, every send it schedules is one of
    the three turns, and the envelope the activity builds from it never
    makes Agent B's handler fail on a missing key; when Temporal accepts
    the start and the signal, the handler starts the workflow [task-<id>]
    of the same task, forwards the turn's id, content and Agent A's reply
    address unchanged, and answers with the turn's id. On a workflow that
    has not seen the turn, the forwarded signal schedules the crash
    activity exactly for the third turn. *)
Theorem turns_accepted_by_agent_b a evs p start_ok signal_ok :
  p ∈ InitiatorWorkflow.sends (InitiatorWorkflow.run a evs) ->
  exists i, (1 <= i <= 3)%nat /\
    let mid := "m" ++ string_of_nat i in
    let wid := "task-" ++ InitiatorWorkflow.a_taskId a in
    let msg := TaskWorkflow.mkMsg mid (InitiatorWorkflow.turn_content i)
                 (InitiatorWorkflow.agentAUrl a ++ "/a2a/message/send") in
    (forall k, fst (AgentBServer.receive_message (AgentBServer.payload p)
                      start_ok signal_ok)
               <> AgentBServer.Raises (AgentBServer.KeyError k)) /\
    (start_ok wid = true -> signal_ok wid = true ->
     AgentBServer.receive_message (AgentBServer.payload p) start_ok signal_ok =
       (AgentBServer.Received mid,
        [AgentBServer.StartWorkflow wid [InitiatorWorkflow.a_taskId a]
           "agent-b-tasks";
         AgentBServer.SignalWorkflow wid "inbound_message" msg])) /\
    (forall st now, TaskWorkflow.seen mid st = false ->
       (snd (TaskWorkflow.inbound_message msg now st) =
          TaskWorkflow.Awaiting TaskWorkflow.crash_worker
            (TaskWorkflow.at_crash_worker mid (InitiatorWorkflow.turn_content i)
               (InitiatorWorkflow.agentAUrl a ++ "/a2a/message/send"))
        <-> i = 3%nat)).
Proof.
  intros Hin.
  destruct (InitiatorFacts.sends_entry a evs p Hin) as (i & Hi & ->).
  exists i. split; [done|]. cbv zeta.
  unfold AgentBServer.receive_message, AgentBServer.payload,
    InitiatorWorkflow.turn_params.
  cbn [AgentBServer.b_params AgentBServer.b_id AgentBServer.taskId
       AgentBServer.messageId AgentBServer.replyTo AgentBServer.content
       InitiatorWorkflow.p_taskId InitiatorWorkflow.p_messageId
       InitiatorWorkflow.replyTo InitiatorWorkflow.p_content].
  split; [|split].
  - intros k.
    destruct (start_ok _); [destruct (signal_ok _)|]; cbn [fst]; discriminate.
  - intros -> ->. reflexivity.
  - intros st now Hseen. unfold TaskWorkflow.inbound_message.
    cbn [TaskWorkflow.msg_message_id TaskWorkflow.msg_content
         TaskWorkflow.msg_reply_to].
    rewrite Hseen.
    assert (Hc : i = 1%nat \/ i = 2%nat \/ i = 3%nat) by lia.
    destruct Hc as [-> | [-> | ->]].
    + change (str_in "EXECUTE_ORDER_66" (InitiatorWorkflow.turn_content 1))
        with false.
      unfold TaskWorkflow.process. cbn [snd]. split; [discriminate|lia].
    + change (str_in "EXECUTE_ORDER_66" (InitiatorWorkflow.turn_content 2))
        with false.
      unfold TaskWorkflow.process. cbn [snd]. split; [discriminate|lia].
    + change (str_in "EXECUTE_ORDER_66" (InitiatorWorkflow.turn_content 3))
        with true.
      cbn [snd]. done.
Qed.

Lemma turns_accepted_by_agent_b_witness :
  exists i, (1 <= i <= 3)%nat /\
    (forall k, fst (AgentBServer.receive_message
                      (AgentBServer.payload
                         (InitiatorWorkflow.turn_params
                            InitiatorWorkflow.demo_args 1))
                      (fun _ => true) (fun _ => true))
               <> AgentBServer.Raises (AgentBServer.KeyError k)).
Proof.
  destruct (turns_accepted_by_agent_b InitiatorWorkflow.demo_args []
              (InitiatorWorkflow.turn_params InitiatorWorkflow.demo_args 1)
              (fun _ => true) (fun _ => true)) as (i & Hi & Hk & _).
  - vm_compute. left.
  - exists i. split; [exact Hi | exact Hk].
Defined.

(** X11 (Agent B's replies as Agent A's endpoint treats them). The
    envelope [send_a2a_message] posts for the reply to message [m] passes
    Agent A's validation unless the task id or the model's response is the
    empty string: the derived reply id is never empty. The activity
    completes, and the reply is then marked sent, exactly when the
    envelope is valid and signalling the workflow [initiator-<task>] did
    not fail with an error other than workflow-not-found; so a reply to a
    workflow that no longer exists counts as sent although nobody received
    it, and an empty response can never be transmitted. A reply that is
    signalled to an open initiator workflow is recorded under the derived
    id [r-<m>] with the response as its content. *)
Theorem reply_accepted_by_agent_a tid m resp signal :
  let rid := TaskWorkflow.reply_id_of m in
  let r := fst (Server.message_send (AgentBServer.reply_envelope tid rid resp)
                  signal) in
  let sig := signal ("initiator-" ++ tid) (InitiatorWorkflow.mkReply rid resp) in
  (Server.http_status r = 400%nat <-> tid = "" \/ resp = "") /\
  (AgentBServer.send_outcome r = TaskWorkflow.Completed "received" <->
     tid <> "" /\ resp <> "" /\ sig <> Server.OtherError) /\
  (forall c t, InitiatorWorkflow.at_point c <> InitiatorWorkflow.Completed ->
     InitiatorWorkflow.receivedReplies
       (InitiatorWorkflow.state
          (InitiatorWorkflow.step c
             (InitiatorWorkflow.replyReceived
                (InitiatorWorkflow.mkReply rid resp), t))) =
     (InitiatorWorkflow.receivedReplies (InitiatorWorkflow.state c) ++
        [InitiatorWorkflow.mkEntry ("r-" ++ m) resp t])%list).
Proof.
  cbv zeta. split; [|split].
  - unfold Server.message_send, AgentBServer.reply_envelope, Server.params_or_empty,
      Server.truthy, Server.str, TaskWorkflow.reply_id_of.
    cbn [Server.params Server.id Server.taskId Server.messageId Server.content
         default].
    change (String.eqb ("r-" ++ m) "") with false.
    destruct (String.eqb_spec tid "") as [Ht|Ht],
             (String.eqb_spec resp "") as [Hr|Hr]; cbn [negb orb fst Server.http_status].
    + tauto.
    + tauto.
    + tauto.
    + destruct (signal _ _); cbn [fst Server.http_status];
        (split; [discriminate | tauto]).
  - unfold Server.message_send, AgentBServer.reply_envelope, Server.params_or_empty,
      Server.truthy, Server.str, TaskWorkflow.reply_id_of, AgentBServer.send_outcome.
    cbn [Server.params Server.id Server.taskId Server.messageId Server.content
         default].
    change (String.eqb ("r-" ++ m) "") with false.
    destruct (String.eqb_spec tid "") as [Ht|Ht],
             (String.eqb_spec resp "") as [Hr|Hr]; cbn [negb orb fst Server.http_status].
    + cbn. split; [discriminate | tauto].
    + cbn. split; [discriminate | tauto].
    + cbn. split; [discriminate | tauto].
    + destruct (signal _ _); cbn.
      * split; [intros _; repeat split; done || discriminate | reflexivity].
      * split; [intros _; repeat split; done || discriminate | reflexivity].
      * split; [discriminate | intros (_ & _ & H); now destruct H].
  - intros c t Hopen. now rewrite InitiatorFacts.step_reply_open.
Qed.

Lemma reply_accepted_by_agent_a_witness :
  InitiatorWorkflow.receivedReplies
    (InitiatorWorkflow.state
       (InitiatorWorkflow.step (InitiatorWorkflow.start InitiatorWorkflow.demo_args)
          (InitiatorWorkflow.replyReceived
             (InitiatorWorkflow.mkReply (TaskWorkflow.reply_id_of "m1") "Yes."),
           50%Z))) =
  [InitiatorWorkflow.mkEntry "r-m1" "Yes." 50].
Proof.
  apply (proj2 (proj2 (reply_accepted_by_agent_a "demo-1" "m1" "Yes."
                         (fun _ _ => Server.Signaled)))
           (InitiatorWorkflow.start InitiatorWorkflow.demo_args) 50%Z).
  vm_compute. discriminate.
Defined.

End CrossAgentFacts.

(** * Further properties: the demo driver and Agent A's endpoints *)

Module DriverFacts.
Import DemoDriver.

Lemma append_inj_r (p s t : string) : p ++ s = p ++ t -> s = t.
Proof.
  induction p as [|a p IH]; cbn [String.append]; [done|].
  intros [= H]. now apply IH.
Qed.

Lemma start_task_starts body env start ws :
  ws ∈ snd (start_task body env start) ->
  exists tid, b_taskId body = Some tid /\ tid <> "" /\
    ws = mkStart (or_default (TEMPORAL_TASK_QUEUE env) "agent-a-tasks")
           ("initiator-" ++ tid)
           [tid; or_default (AGENT_B_URL env) "http://agent-b:8080";
            or_default (AGENT_A_URL env) "http://agent-a:8081"].
Proof.
  unfold start_task. destruct (b_taskId body) as [tid|]; cbn [snd].
  - destruct (String.eqb_spec tid "") as [Heq|Hne]; cbn [snd].
    + intros H. now apply elem_of_nil in H.
    + intros H. exists tid. split; [done|]. split; [done|].
      destruct (start _); cbn [snd] in H;
        now apply list_elem_of_singleton in H.
  - intros H. now apply elem_of_nil in H.
Qed.



(** X13 (the reply address is the advertised endpoint). Every turn sent by
    a workflow that start-task started carries, as its reply address, the
    [message/send] endpoint Agent A's agent card advertises under the same
    environment, and goes to Agent B's [message/send] endpoint under the
    configured or the default base URL; it names the task of the start
    request. *)
Theorem reply_address_is_advertised body env start ws a evs p :
  ws ∈ snd (start_task body env start) ->
  invoke (wargs ws) = Some a ->
  p ∈ InitiatorWorkflow.sends (InitiatorWorkflow.run a evs) ->
  Server.endpoint "message/send" (Server.endpoints (Server.agent_card env)) =
    Some (InitiatorWorkflow.replyTo p) /\
  InitiatorWorkflow.recipientUrl p =
    or_default (AGENT_B_URL env) "http://agent-b:8080" ++ "/a2a/message/send" /\
  b_taskId body = Some (InitiatorWorkflow.p_taskId p).
Proof.
  intros Hws Hinv Hp.
  destruct (start_task_starts _ _ _ _ Hws) as (tid & Htid & _ & ->).
  cbn in Hinv. injection Hinv as <-.
  destruct (InitiatorFacts.sends_entry _ evs p Hp) as (i & _ & ->).
  unfold InitiatorWorkflow.turn_params.
  cbn [InitiatorWorkflow.replyTo InitiatorWorkflow.recipientUrl
       InitiatorWorkflow.p_taskId InitiatorWorkflow.agentAUrl
       InitiatorWorkflow.agentBUrl InitiatorWorkflow.a_taskId].
  split; [|done].
  unfold Server.agent_card. cbn [Server.endpoints Server.endpoint].
  now rewrite String.eqb_refl.
Qed.

Lemma reply_address_is_advertised_witness :
  Server.endpoint "message/send" (Server.endpoints (Server.agent_card no_env)) =
    Some (InitiatorWorkflow.replyTo
            (InitiatorWorkflow.turn_params InitiatorWorkflow.demo_args 1)) /\
  InitiatorWorkflow.recipientUrl
    (InitiatorWorkflow.turn_params InitiatorWorkflow.demo_args 1) =
    or_default (AGENT_B_URL no_env) "http://agent-b:8080" ++ "/a2a/message/send" /\
  b_taskId one_turn =
    Some (InitiatorWorkflow.p_taskId
            (InitiatorWorkflow.turn_params InitiatorWorkflow.demo_args 1)).
Proof.
  apply (reply_address_is_advertised one_turn no_env (fun _ => None)
           (mkStart "agent-a-tasks" "initiator-demo-1"
              ["demo-1"; "http://agent-b:8080"; "http://agent-a:8081"])
           InitiatorWorkflow.demo_args []).
  - vm_compute. left.
  - reflexivity.
  - vm_compute. left.
Defined.

(** X14 (one workflow per task, addressed consistently). The status
    endpoint and the A2A endpoint address the very workflow that
    start-task started for the task: the status answer depends on
    Temporal's description of that workflow only, and the handling of a
    reply for the task depends only on the outcome of signalling that
    workflow with the reply. Distinct tasks have distinct workflows, and
    no initiator workflow shares its id with a task workflow of Agent B,
    whatever the task ids. *)
Theorem workflow_addressed_consistently body env start ws tid :
  ws ∈ snd (start_task body env start) ->
  b_taskId body = Some tid ->
  (forall d1 d2, d1 (workflowId ws) = d2 (workflowId ws) ->
     status_task tid d1 = status_task tid d2) /\
  (forall mid cont rid s1 s2,
     s1 (workflowId ws) (InitiatorWorkflow.mkReply mid cont) =
     s2 (workflowId ws) (InitiatorWorkflow.mkReply mid cont) ->
     Server.message_send
       (Server.mkA2ABody
          (Some (Server.mkA2AParams (Some tid) (Some mid) (Some cont))) rid) s1 =
     Server.message_send
       (Server.mkA2ABody
          (Some (Server.mkA2AParams (Some tid) (Some mid) (Some cont))) rid) s2) /\
  (forall body' env' start' ws',
     ws' ∈ snd (start_task body' env' start') ->
     workflowId ws' = workflowId ws -> b_taskId body' = Some tid) /\
  (forall tid', workflowId ws <> "task-" ++ tid').
Proof.
  intros Hws Htid.
  destruct (start_task_starts _ _ _ _ Hws) as (tid0 & Htid0 & Hne & ->).
  rewrite Htid in Htid0. injection Htid0 as <-.
  cbn [workflowId]. split; [|split; [|split]].
  - intros d1 d2 Hd. unfold status_task. now rewrite Hd.
  - intros mid cont rid s1 s2 Hs. unfold Server.message_send.
    cbn [Server.params_or_empty Server.params Server.taskId Server.messageId
         Server.content Server.str default].
    cbv zeta. unfold Server.params_or_empty.
    cbn [Server.params Server.taskId Server.messageId Server.content
         Server.str default].
    unfold Datatypes.id. now rewrite Hs.
  - intros body' env' start' ws' Hws' Heq.
    destruct (start_task_starts _ _ _ _ Hws') as (tid' & Htid' & _ & ->).
    cbn [workflowId] in Heq. apply append_inj_r in Heq. congruence.
  - intros tid'. cbn. discriminate.
Qed.

Lemma workflow_addressed_consistently_witness :
  status_task "demo-1" (fun _ => inr "not found") =
  status_task "demo-1"
    (fun wid => if String.eqb wid "initiator-demo-1" then inr "not found"
                else inl ("RUNNING", "run-1")).
Proof.
  apply (proj1 (workflow_addressed_consistently one_turn no_env
    (fun _ => None)
    (mkStart "agent-a-tasks" "initiator-demo-1"
       ["demo-1"; "http://agent-b:8080"; "http://agent-a:8081"])
    "demo-1" ltac:(vm_compute; left) eq_refl)).
  reflexivity.
Defined.

End DriverFacts.

(** * Further properties: tracing *)

Module LangfuseFacts.
Import Langfuse.

Lemma calls_after_init c envs :
  calls (Some c) envs = replicate (length envs) (Some c).
Proof. induction envs as [|e envs IH]; [done|]. cbn. now rewrite IH. Qed.

Lemma first_call e :
  getLangfuseClient None e =
  if configured e
  then (Some (mkClient (DemoDriver.or_default (LANGFUSE_PUBLIC_KEY e) "")
                (DemoDriver.or_default (LANGFUSE_SECRET_KEY e) "")
                (DemoDriver.or_default (LANGFUSE_HOST e) "http://langfuse:3000")),
        Some (mkClient (DemoDriver.or_default (LANGFUSE_PUBLIC_KEY e) "")
                (DemoDriver.or_default (LANGFUSE_SECRET_KEY e) "")
                (DemoDriver.or_default (LANGFUSE_HOST e) "http://langfuse:3000")),
        ["[Langfuse] Client initialized"])
  else (None, None, ["[Langfuse] Keys not configured, tracing disabled"]).
Proof. unfold getLangfuseClient, configured. now destruct (_ && _). Qed.

(** X15 (the Langfuse client is created once). Over any sequence of calls
    of [getLangfuseClient], each under the environment of its time: once a
    call has returned a client, every later call returns that same client,
    whatever the environment has become; and a call returns [null] exactly
    when the keys were missing or empty at that call and at every call
    before it, so the disabled state is not remembered and tracing starts
    as soon as a call finds both keys. *)
Theorem client_created_once envs :
  (forall i j c, (i <= j < length envs)%nat ->
     calls None envs !! i = Some (Some c) ->
     calls None envs !! j = Some (Some c)) /\
  (forall i, (i < length envs)%nat ->
     (calls None envs !! i = Some None <->
      forall k e, (k <= i)%nat -> envs !! k = Some e -> configured e = false)).
Proof.
  split.
  - induction envs as [|e envs IH]; intros i j c Hij Hi; [cbn in Hij; lia|].
    cbn [calls] in *. rewrite first_call in *.
    destruct (configured e) eqn:Hc.
    + rewrite calls_after_init in *. cbn [length] in Hij.
      destruct i as [|i]; cbn in Hi.
      * injection Hi as <-. destruct j as [|j]; [done|]. cbn.
        apply lookup_replicate_2. lia.
      * apply lookup_replicate in Hi as [Hi _]. rewrite Hi.
        destruct j as [|j]; [lia|]. cbn. apply lookup_replicate_2. lia.
    + destruct i as [|i]; [discriminate|]. destruct j as [|j]; [lia|].
      cbn in *. apply (IH i j c); [lia | done].
  - induction envs as [|e envs IH]; intros i Hi; [cbn in Hi; lia|].
    cbn [calls]. rewrite first_call.
    destruct (configured e) eqn:Hc.
    + rewrite calls_after_init. split.
      * intros H. destruct i as [|i]; [discriminate|]. cbn in H.
        apply lookup_replicate in H as [H _]. discriminate.
      * intros H. specialize (H 0%nat e ltac:(lia) eq_refl). congruence.
    + destruct i as [|i].
      * split; [|done]. intros _ k e' Hk He'. assert (k = 0%nat) as -> by lia.
        cbn in He'. congruence.
      * cbn [length] in Hi. cbn [lookup list_lookup]. rewrite IH by lia. split.
        -- intros H k e' Hk He'. destruct k as [|k]; [cbn in He'; congruence|].
           apply (H k e'); [lia | done].
        -- intros H k e' Hk He'. apply (H (S k) e'); [lia | done].
Qed.

Lemma client_created_once_witness :
  calls None [mkEnv None None None; mkEnv (Some "pk") (Some "sk") None;
              mkEnv None None None] !! 2%nat =
  Some (Some (mkClient "pk" "sk" "http://langfuse:3000")).
Proof.
  apply (proj1 (client_created_once
                  [mkEnv None None None; mkEnv (Some "pk") (Some "sk") None;
                   mkEnv None None None]) 1%nat 2%nat).
  - cbn. lia.
  - reflexivity.
Defined.

(** X16 (tracing around the send). With or without a Langfuse client the
    traced activity performs exactly one POST per attempt. Without a
    client it is the untraced activity. With a client it returns or throws
    as the untraced activity does whenever [flushAsync] resolves; but a
    rejected flush makes the attempt throw even though the POST succeeded,
    so that Temporal will retry a message the recipient already has, and
    a rejected flush in the error path replaces the error of the POST.
    At most two flushes are attempted. *)
Theorem tracing_around_send lf r f1 f2 :
  let res := sendA2AMessage lf r f1 f2 in
  count is_fetch (snd res) = 1%nat /\
  (count is_flush (snd res) <= 2)%nat /\
  (lf = None -> res = (Retry.sendA2AMessage r, [fetch_call])) /\
  (f1 = None -> f2 = None -> fst res = Retry.sendA2AMessage r) /\
  (forall c e, lf = Some c -> Retry.sendA2AMessage r = Retry.Returns ->
     f1 = Some e -> fst res <> Retry.Returns /\
     count is_flush (snd res) = 2%nat) /\
  (forall c e n m, lf = Some c -> Retry.sendA2AMessage r = Retry.Throws n m ->
     f2 = Some e -> fst res = Retry.Throws (fst e) (snd e)).
Proof.
  cbv zeta. unfold sendA2AMessage.
  destruct lf as [c|].
  - destruct (Retry.sendA2AMessage r) as [|n m] eqn:Hr;
      destruct f1 as [e1|], f2 as [e2|]; cbn [fst snd app];
      refine (conj _ (conj _ (conj _ (conj _ (conj _ _)))));
      solve [ reflexivity
            | vm_compute; lia
            | intros; simplify_eq; cbn [fst snd];
              first [ reflexivity | split; [discriminate | reflexivity] ] ].
  - refine (conj _ (conj _ (conj _ (conj _ (conj _ _)))));
      solve [ reflexivity
            | vm_compute; lia
            | intros; simplify_eq; cbn [fst snd]; reflexivity ].
Qed.

Lemma tracing_around_send_witness :
  fst (sendA2AMessage (Some (mkClient "pk" "sk" "http://langfuse:3000"))
         (Retry.HttpResponse 200 "OK" true)
         (Some ("Error", "flush failed")) None) <> Retry.Returns /\
  count is_flush
    (snd (sendA2AMessage (Some (mkClient "pk" "sk" "http://langfuse:3000"))
            (Retry.HttpResponse 200 "OK" true)
            (Some ("Error", "flush failed")) None)) = 2%nat.
Proof.
  apply (proj1 (proj2 (proj2 (proj2 (proj2
           (tracing_around_send
              (Some (mkClient "pk" "sk" "http://langfuse:3000"))
              (Retry.HttpResponse 200 "OK" true)
              (Some ("Error", "flush failed")) None)))))
         (mkClient "pk" "sk" "http://langfuse:3000") ("Error", "flush failed")).
  - reflexivity.
  - reflexivity.
  - reflexivity.
Defined.

End LangfuseFacts.

(** * Further properties: how the inbound handler can end *)

Module HandlerFacts.
Import TaskWorkflow.



End HandlerFacts.
